(** * tcp-lb-go: a shallow embedding of the load balancer and its server

    The first part translates the sources, one module per file:

    - [Int]          the fixed-width integers of Go ([int64], [uint64]);
    - [Float64]      [float64], IEEE 754 binary64;
    - [Time]         the readings of the monotonic clock and durations;
    - [RateLimiter]  lib/rate-limiter.go;
    - [Balancer]     lib/load-balancer.go;
    - [Sha256], [Hex] the two functions of the standard library that
                     [GenerateClientID] calls;
    - [Server]       server/server.go;
    - [Main]         main.go;
    - [Fixtures]     the values the tests of the repository use.

    Go values keep their Go representation: an [int64] is a [Z] together
    with the wrap-around of the machine operation, a pointer to a
    [Backend] is an address into a store of records (so that a backend
    registered twice is one object), a [map[string]struct{}] is a
    [gset string], a [map[string]V] a [gmap string V].  What a function
    reads from outside (the clock, the dialer, the listener, the command
    line) is an argument of its translation.

    The second part states and proves the properties. *)

From Stdlib Require Import ZArith String Ascii Bool Lia.
From Stdlib Require Import Floats.SpecFloat DecimalString DecimalZ DecimalPos.
From stdpp Require Import gmap strings list.

(** ** Fixed-width integers *)

Module Int.

Local Open Scope Z_scope.

Definition max_int64 : Z := 2 ^ 63 - 1.
Definition min_int64 : Z := - 2 ^ 63.
Definition max_uint64 : Z := 2 ^ 64 - 1.

(** The value an [int64] register holds after an operation whose
    mathematical result is [z]. *)
Definition wrap_int64 (z : Z) : Z := (z + 2 ^ 63) mod 2 ^ 64 - 2 ^ 63.

(** The same for [uint64]. *)
Definition wrap_uint64 (z : Z) : Z := z mod 2 ^ 64.

Definition is_int64 (z : Z) : Prop := min_int64 <= z <= max_int64.
Definition is_uint64 (z : Z) : Prop := 0 <= z <= max_uint64.

End Int.

(** ** IEEE 754 binary64, the [float64] of Go

    The operations are those of the Standard Library's executable
    specification of binary floating point, at precision 53 and maximal
    exponent 1024, rounding to nearest, ties to even. *)

Module Float64.

Import Int.
Local Open Scope Z_scope.

Definition prec : Z := 53.
Definition emax : Z := 1024.

Abbreviation float64 := spec_float.

Definition fadd : float64 -> float64 -> float64 := SFadd prec emax.
Definition fsub : float64 -> float64 -> float64 := SFsub prec emax.
Definition fmul : float64 -> float64 -> float64 := SFmul prec emax.
Definition fdiv : float64 -> float64 -> float64 := SFdiv prec emax.

(** [x < y] and [x <= y]; both are false when an operand is NaN. *)
Definition flt : float64 -> float64 -> bool := SFltb.
Definition fle : float64 -> float64 -> bool := SFleb.

(** The conversion [float64(n)] of an integer. *)
Definition of_Z (n : Z) : float64 := binary_normalize prec emax n 0 false.

Definition zero : float64 := S754_zero false.
Definition one : float64 := of_Z 1.

(** The integer part of a finite float, rounding toward zero. *)
Definition trunc (x : float64) : option Z :=
  match x with
  | S754_zero _ => Some 0
  | S754_finite s m e =>
      Some (cond_Zopp s (match e with
                         | Z0 => Zpos m
                         | Zpos k => Zpos m * 2 ^ Zpos k
                         | Zneg k => Zpos m / 2 ^ Zpos k
                         end))
  | S754_infinity _ | S754_nan => None
  end.

(** The conversion [uint64(x)].  Go truncates toward zero a value that
    fits; for one that does not (too large, negative, infinite, NaN) the
    language leaves the result to the implementation, here [oor x]. *)
Definition to_uint64 (oor : float64 -> Z) (x : float64) : Z :=
  match trunc x with
  | Some z => if (0 <=? z) && (z <=? max_uint64) then z else wrap_uint64 (oor x)
  | None => wrap_uint64 (oor x)
  end.

(** A float that is [+0] or a positive finite number. *)
Definition nonneg_finite (x : float64) : Prop :=
  x = S754_zero false \/ exists m e, x = S754_finite false m e.

End Float64.

(** ** package time: monotonic readings and durations *)

Module Time.

Import Int Float64.
Local Open Scope Z_scope.

(** The monotonic reading of a [time.Time] obtained from [time.Now()],
    in nanoseconds, an [int64]. *)
Definition Time : Type := Z.

(** [time.Duration], nanoseconds in an [int64]. *)
Definition Duration : Type := Z.

Definition minDuration : Duration := min_int64.
Definition maxDuration : Duration := max_int64.
Definition Second : Duration := 1000000000.

(** [func subMono(t, u int64) Duration], which [Time.Sub] uses for two
    readings of the monotonic clock: the difference, saturated. *)
Definition subMono (t u : Z) : Duration :=
  let d := wrap_int64 (t - u) in
  if (d <? 0) && (u <? t) then maxDuration
  else if (0 <? d) && (t <? u) then minDuration
  else d.

(** [func (t Time) Sub(u Time) Duration] *)
Definition Sub (t u : Time) : Duration := subMono t u.

(** [func (d Duration) Seconds() float64]:
    [sec := d / Second; nsec := d % Second;
     return float64(sec) + float64(nsec)/1e9] *)
Definition Seconds (d : Duration) : float64 :=
  let sec := Z.quot d Second in
  let nsec := Z.rem d Second in
  fadd (of_Z sec) (fdiv (of_Z nsec) (of_Z 1000000000)).

End Time.

(** ** lib/rate-limiter.go *)

Module RateLimiter.

Import Int Float64.
Local Open Scope Z_scope.

(** [type tokenBucket struct] *)
Record tokenBucket : Type := mkTokenBucket {
  capacity : Z;                (* uint64 *)
  tokens : Z;                  (* uint64 *)
  refillRate : Z;              (* uint64 *)
  fractionalTokens : float64;
  lastRefillTime : Time.Time
}.

(** [func newTokenBucket(capacity, refillRate uint64) *tokenBucket];
    [now] is what [time.Now()] returns in it, and [fractionalTokens]
    takes the zero value of its type. *)
Definition newTokenBucket (now : Time.Time) (capacity refillRate : Z) : tokenBucket :=
  {| capacity := capacity;
     tokens := capacity;
     refillRate := refillRate;
     fractionalTokens := zero;
     lastRefillTime := now |}.

(** [type rateLimiter struct]; a bucket is reached only through the map,
    so the map holds the buckets themselves. *)
Record rateLimiter : Type := mkRateLimiter {
  bucketCapacity : Z;
  bucketRefillRate : Z;
  clientBuckets : gmap string tokenBucket
}.

(** [func newRateLimiter(bucketCapacity, bucketRefillRate uint64) *rateLimiter] *)
Definition newRateLimiter (bucketCapacity bucketRefillRate : Z) : rateLimiter :=
  {| bucketCapacity := bucketCapacity;
     bucketRefillRate := bucketRefillRate;
     clientBuckets := ∅ |}.

Section Platform.

(** What [uint64(x)] yields on this platform for an [x] out of range. *)
Variable oor : float64 -> Z.

(** [func (tb *tokenBucket) refillTokens()]; [now] is the reading of
    [time.Now()] at its first line. *)
Definition refillTokens (now : Time.Time) (tb : tokenBucket) : tokenBucket :=
  let elapsed := Time.Seconds (Time.Sub now (lastRefillTime tb)) in
  let refillAmount := fmul elapsed (of_Z (refillRate tb)) in
  let wholeTokens := to_uint64 oor refillAmount in
  let fractional := fadd (fractionalTokens tb) (fsub refillAmount (of_Z wholeTokens)) in
  let '(wholeTokens, fractional) :=
    if fle one fractional
    then (wrap_uint64 (wholeTokens + 1), fsub fractional one)
    else (wholeTokens, fractional) in
  if flt zero refillAmount then
    {| capacity := capacity tb;
       tokens := Z.min (capacity tb) (wrap_uint64 (tokens tb + wholeTokens));
       refillRate := refillRate tb;
       fractionalTokens := fractional;
       lastRefillTime := now |}
  else
    {| capacity := capacity tb;
       tokens := tokens tb;
       refillRate := refillRate tb;
       fractionalTokens := fractional;
       lastRefillTime := lastRefillTime tb |}.

(** [func (tb *tokenBucket) takeToken() bool] *)
Definition takeToken (now : Time.Time) (tb : tokenBucket) : bool * tokenBucket :=
  let tb := refillTokens now tb in
  if tokens tb =? 0 then (false, tb)
  else (true,
        {| capacity := capacity tb;
           tokens := wrap_uint64 (tokens tb - 1);
           refillRate := refillRate tb;
           fractionalTokens := fractionalTokens tb;
           lastRefillTime := lastRefillTime tb |}).

(** The readings of the clock during one [allowConnection]: the one of
    [newTokenBucket], taken only for a client seen for the first time, and
    the one of [refillTokens]. *)
Record clock : Type := mkClock {
  now_newTokenBucket : Time.Time;
  now_refillTokens : Time.Time
}.

(** The bucket [allowConnection] works on: the client's, or a new one. *)
Definition bucket_of (clk : clock) (clientID : string) (rl : rateLimiter) : tokenBucket :=
  match clientBuckets rl !! clientID with
  | Some bucket => bucket
  | None => newTokenBucket (now_newTokenBucket clk) (bucketCapacity rl) (bucketRefillRate rl)
  end.

(** [func (rl *rateLimiter) allowConnection(clientID string) bool] *)
Definition allowConnection (clk : clock) (clientID : string) (rl : rateLimiter)
    : bool * rateLimiter :=
  let bucket := bucket_of clk clientID rl in
  let '(ok, bucket) := takeToken (now_refillTokens clk) bucket in
  (ok, {| bucketCapacity := bucketCapacity rl;
          bucketRefillRate := bucketRefillRate rl;
          clientBuckets := <[clientID := bucket]> (clientBuckets rl) |}).

End Platform.

(** The residue of a bucket as the data model bounds it,
    [0 <= fractional < 1]: the float [+0], or one strictly between 0 and 1. *)
Definition unit_residue (f : float64) : Prop :=
  f = zero ∨ (flt zero f = true ∧ flt f one = true).



(** A bucket whose integer fields hold [uint64] values. *)
Definition typed_bucket (tb : tokenBucket) : Prop :=
  is_uint64 (capacity tb) ∧ is_uint64 (tokens tb) ∧ is_uint64 (refillRate tb).

(** A rate limiter whose integer fields hold [uint64] values. *)
Definition typed_limiter (rl : rateLimiter) : Prop :=
  is_uint64 (bucketCapacity rl) ∧ is_uint64 (bucketRefillRate rl) ∧
  ∀ clientID tb, clientBuckets rl !! clientID = Some tb → typed_bucket tb.

(** The amount [refillTokens] computes: [elapsed * float64(tb.refillRate)]. *)
Definition refillAmount (now : Time.Time) (tb : tokenBucket) : float64 :=
  fmul (Time.Seconds (Time.Sub now (lastRefillTime tb))) (of_Z (refillRate tb)).

(** The whole tokens [refillTokens] counts: the integer part of the
    amount and the carry of the residue. *)
Definition wholeTokens (oor : float64 -> Z) (now : Time.Time) (tb : tokenBucket) : Z :=
  let whole := to_uint64 oor (refillAmount now tb) in
  if fle one (fadd (fractionalTokens tb) (fsub (refillAmount now tb) (of_Z whole)))
  then wrap_uint64 (whole + 1)
  else whole.

(** No bucket of the limiter holds more tokens than its capacity. *)
Definition within_capacity (rl : rateLimiter) : Prop :=
  ∀ clientID tb, clientBuckets rl !! clientID = Some tb → tokens tb <= capacity tb.

(** [for ... { rl.allowConnection(clientID) }]: one call per entry of
    [clks], the readings of the clock during that call; the answers in
    order, and the limiter left. *)
Fixpoint allow_each (oor : float64 -> Z) (clks : list clock) (clientID : string)
    (rl : rateLimiter) : list bool * rateLimiter :=
  match clks with
  | [] => ([], rl)
  | clk :: rest =>
      let '(ok, rl) := allowConnection oor clk clientID rl in
      let '(oks, rl) := allow_each oor rest clientID rl in
      (ok :: oks, rl)
  end.

End RateLimiter.

(** ** lib/load-balancer.go: the backend registry *)

Module Balancer.

Import Int.
Local Open Scope Z_scope.

(** [var ( ErrNoRegisteredBackends ... )], together with the errors a
    dialer or the relay hands back, which the balancer only forwards. *)
Inductive error : Type :=
  | ErrNoRegisteredBackends
  | ErrNoAvailableBackend
  | ErrRateLimitReached
  | ErrDial (msg : string)
  | ErrJoin (msgs : list string).   (* errors.Join of the relay's errors *)

(** [type Backend struct { Address string; connections atomic.Int64 }] *)
Record Backend : Type := mkBackend {
  Address : string;
  connections : Z
}.

(** A [*Backend].  The store maps the addresses of live objects to their
    contents; [nil] is an address the store does not hold, and
    dereferencing it panics. *)
Definition ptr : Type := positive.
Abbreviation store := (gmap ptr Backend).

(** What a caller can watch the balancer do to the outside world. *)
Inductive event : Type :=
  | EvLoad (p : ptr)        (* b.connections.Load()   *)
  | EvAdd (p : ptr) (d : Z) (* b.connections.Add(d)   *)
  | EvDial (addr : string)  (* lb.dialer.Dial         *)
  | EvTransfer              (* transferData           *)
  | EvClose.                (* backendConn.Close      *)

(** [b.connections.Add(d)] *)
Definition add_connections (d : Z) (b : Backend) : Backend :=
  {| Address := Address b; connections := wrap_int64 (connections b + d) |}.

(** [func (b *Backend) incrementConnections()] *)
Definition incrementConnections (p : ptr) (mem : store) : option store :=
  match mem !! p with
  | Some b => Some (<[p := add_connections 1 b]> mem)
  | None => None
  end.

(** [func (b *Backend) decrementConnections()] *)
Definition decrementConnections (p : ptr) (mem : store) : option store :=
  match mem !! p with
  | Some b => Some (<[p := add_connections (-1) b]> mem)
  | None => None
  end.

(** [func (b *Backend) ConnectionCount() int64] *)
Definition ConnectionCount (p : ptr) (mem : store) : option Z :=
  connections <$> mem !! p.

(** The loop of [GetBackend]:
    [for _, backend := range lb.backends { ... }]
    with its two locals [selectedBackend] and [leastConnectionCount].
    [None] is the panic of a nil dereference.  The third component lists
    the counter reads: the test [selectedBackend == nil || ...] skips the
    read when nothing is selected yet. *)
Fixpoint scan (mem : store) (allowed : gset string) (bs : list ptr)
    (selectedBackend : option ptr) (leastConnectionCount : Z)
    : option (option ptr * Z * list event) :=
  match bs with
  | [] => Some (selectedBackend, leastConnectionCount, [])
  | backend :: rest =>
      match mem !! backend with
      | None => None
      | Some b =>
          if decide (Address b ∈ allowed) then
            match selectedBackend with
            | None =>
                '(s, l, evs) ← scan mem allowed rest (Some backend) (connections b);
                Some (s, l, EvLoad backend :: evs)
            | Some _ =>
                if connections b <? leastConnectionCount then
                  '(s, l, evs) ← scan mem allowed rest (Some backend) (connections b);
                  Some (s, l, EvLoad backend :: EvLoad backend :: evs)
                else
                  '(s, l, evs) ← scan mem allowed rest selectedBackend leastConnectionCount;
                  Some (s, l, EvLoad backend :: evs)
            end
          else scan mem allowed rest selectedBackend leastConnectionCount
      end
  end.

(** The three ways a call of [GetBackend] ends. *)
Inductive get_result : Type :=
  | GetOk (b : ptr)
  | GetErr (e : error)
  | GetPanic.

(** [func (lb *LoadBalancer) GetBackend(allowedBackends map[string]struct{})],
    returning a backend pointer or an error, on the slice [lb.backends]. *)
Definition GetBackend (backends : list ptr) (allowedBackends : gset string)
    (mem : store) : get_result * store * list event :=
  match backends with
  | [] => (GetErr ErrNoRegisteredBackends, mem, [])
  | _ =>
      match scan mem allowedBackends backends None 0 with
      | None => (GetPanic, mem, [])
      | Some (None, _, evs) => (GetErr ErrNoAvailableBackend, mem, evs)
      | Some (Some selectedBackend, _, evs) =>
          match incrementConnections selectedBackend mem with
          | Some mem' => (GetOk selectedBackend, mem', evs ++ [EvAdd selectedBackend 1])
          | None => (GetPanic, mem, evs)
          end
      end
  end.

(** [func (lb *LoadBalancer) AddBackend(backend *Backend)] *)
Definition AddBackend (backend : ptr) (backends : list ptr) : list ptr :=
  backends ++ [backend].

(** [type LoadBalancer struct]: the slice of registered backends and the
    rate limiter.  The mutex has no content in a sequential run, and the
    dialer is part of the environment of a call (see [env]). *)
Record LoadBalancer : Type := mkLoadBalancer {
  backends : list ptr;
  rateLimiter : RateLimiter.rateLimiter
}.

(** [func NewLoadBalancer(bucketCapacity, bucketRefillRate uint64) *LoadBalancer] *)
Definition NewLoadBalancer (bucketCapacity bucketRefillRate : Z) : LoadBalancer :=
  {| backends := [];
     rateLimiter := RateLimiter.newRateLimiter bucketCapacity bucketRefillRate |}.

(** How [lb.dialer.Dial("tcp", address)] ends. *)
Inductive dial_result : Type :=
  | DialOk
  | DialFail (msg : string)
  | DialPanics.

(** *** lib/helpers.go *)

(** What the two copies of [transferData] meet: the error (or nil) of
    [io.Copy(clientConn, backendConn)], that of
    [io.Copy(backendConn, clientConn)], and which of the two goroutines
    sends on [errChan] first. *)
Record relay : Type := mkRelay {
  copy_from_backend : option string;
  copy_to_backend : option string;
  from_backend_first : bool
}.

(** [errors.Join(errs...)]: nil when every error is nil, otherwise the
    non-nil errors in their order. *)
Definition errors_Join (errs : list (option string)) : option error :=
  match omap id errs with
  | [] => None
  | msgs => Some (ErrJoin msgs)
  end.

(** [func transferData(clientConn, backendConn net.Conn) error] *)
Definition transferData (r : relay) : option error :=
  let from_backend :=
    (λ err, "copying data from backend server: " ++ err)%string <$> copy_from_backend r in
  let to_backend :=
    (λ err, "copying data to backend server: " ++ err)%string <$> copy_to_backend r in
  let '(err1, err2) :=
    if from_backend_first r then (from_backend, to_backend)
    else (to_backend, from_backend) in
  errors_Join [err1; err2].

(** What one call of [RouteConnection] meets outside the balancer: the
    platform's out-of-range conversion, the clock, the dialer and the
    relay between the two connections. *)
Record env : Type := mkEnv {
  env_oor : Float64.float64 -> Z;
  env_clock : RateLimiter.clock;
  env_dial : string -> dial_result;
  env_relay : relay
}.

(** How a call of [RouteConnection] ends: it returns an error or nil, or
    it panics. *)
Inductive route_result : Type :=
  | RouteReturn (err : option error)
  | RoutePanic.

(** The statements of [RouteConnection] after the [defer] of the
    decrement: dial, [defer backendConn.Close()], relay. *)
Definition dial_and_transfer (e : env) (address : string) : route_result * list event :=
  match env_dial e address with
  | DialFail msg => (RouteReturn (Some (ErrDial msg)), [EvDial address])
  | DialPanics => (RoutePanic, [EvDial address])
  | DialOk =>
      (RouteReturn (transferData (env_relay e)), [EvDial address; EvTransfer; EvClose])
  end.

(** [func (lb *LoadBalancer) RouteConnection(clientID string,
      clientConn net.Conn, allowedBackends map[string]struct{}) error].
    The deferred function runs when the body returns and when it panics. *)
Definition RouteConnection (e : env) (clientID : string) (allowedBackends : gset string)
    (lb : LoadBalancer) (mem : store)
    : route_result * LoadBalancer * store * list event :=
  let '(ok, rl) :=
    RateLimiter.allowConnection (env_oor e) (env_clock e) clientID (rateLimiter lb) in
  let lb := {| backends := backends lb; rateLimiter := rl |} in
  if negb ok then (RouteReturn (Some ErrRateLimitReached), lb, mem, [])
  else
    match GetBackend (backends lb) allowedBackends mem with
    | (GetErr err, mem, evs) => (RouteReturn (Some err), lb, mem, evs)
    | (GetPanic, mem, evs) => (RoutePanic, lb, mem, evs)
    | (GetOk selectedBackend, mem, evs) =>
        let '(r, evs') :=
          match mem !! selectedBackend with
          | Some b => dial_and_transfer e (Address b)
          | None => (RoutePanic, [])
          end in
        match decrementConnections selectedBackend mem with
        | Some mem => (r, lb, mem, evs ++ evs' ++ [EvAdd selectedBackend (-1)])
        | None => (RoutePanic, lb, mem, evs ++ evs')
        end
    end.


(** How often a trace adds [d] to the counter of [p]. *)
Fixpoint count_add (p : ptr) (d : Z) (evs : list event) : nat :=
  match evs with
  | [] => O
  | EvAdd q d' :: rest =>
      if decide (q = p ∧ d' = d) then S (count_add p d rest) else count_add p d rest
  | _ :: rest => count_add p d rest
  end.

(** The events of a trace that touch a backend or the network. *)
Definition touches_counter (ev : event) : bool :=
  match ev with
  | EvLoad _ | EvAdd _ _ => true
  | _ => false
  end.

(** A store whose counters hold [int64] values. *)
Definition typed_store (mem : store) : Prop :=
  map_Forall (λ _ b, is_int64 (connections b)) mem.

(** Every registered pointer is a live [Backend] (none is nil). *)
Definition registered_live (backends : list ptr) (mem : store) : Prop :=
  ∀ p, p ∈ backends → is_Some (mem !! p).

(** [c] bounds from below (strictly, or not) the counters of the backends
    of [l] whose address the client may use. *)
Definition all_above (strict : bool) (mem : store) (allowed : gset string)
    (l : list ptr) (c : Z) : Prop :=
  ∀ q b, q ∈ l → mem !! q = Some b → Address b ∈ allowed →
         if strict then c < connections b else c <= connections b.

(** No backend of [l] is one the client may use. *)
Definition none_allowed (mem : store) (allowed : gset string) (l : list ptr) : Prop :=
  ∀ q b, q ∈ l → mem !! q = Some b → Address b ∉ allowed.

(** What the loop has selected when it ends, from what it had selected
    when it began. *)
Definition scan_post (mem : store) (allowed : gset string) (bs : list ptr)
    (sel : option ptr) (least : Z) (s : option ptr) (l : Z) : Prop :=
  (s = sel ∧
   match sel with
   | None => none_allowed mem allowed bs
   | Some _ => l = least ∧ all_above false mem allowed bs least
   end)
  ∨ (∃ r pre post b,
       s = Some r ∧ bs = pre ++ r :: post ∧ mem !! r = Some b ∧
       Address b ∈ allowed ∧ connections b = l ∧
       match sel with None => True | Some _ => l < least end ∧
       all_above true mem allowed pre l ∧ all_above false mem allowed post l).

(** The last part of the selection property as the specification words
    it: after a successful call the counter of the chosen backend is its
    observed value plus one. *)
Definition post_is_observed_plus_one : Prop :=
  ∀ backends allowed (mem mem' : store) B evs,
    GetBackend backends allowed mem = (GetOk B, mem', evs) →
    ∃ b b', mem !! B = Some b ∧ mem' !! B = Some b' ∧
            connections b' = connections b + 1.

(** The counters of the allowed registered backends lie within one of
    each other. *)
Definition balanced (mem : store) (allowed : gset string) (backends : list ptr) : Prop :=
  ∀ p q bp bq,
    p ∈ backends → q ∈ backends →
    mem !! p = Some bp → mem !! q = Some bq →
    Address bp ∈ allowed → Address bq ∈ allowed →
    connections bp <= connections bq + 1.

(** The addresses a trace dials, in order. *)
Fixpoint dialed (evs : list event) : list string :=
  match evs with
  | [] => []
  | EvDial address :: rest => address :: dialed rest
  | _ :: rest => dialed rest
  end.

(** One call of [RouteConnection]: its environment and its arguments. *)
Record call : Type := mkCall {
  call_env : env;
  call_clientID : string;
  call_allowed : gset string
}.

(** Calls of [RouteConnection] one after the other on the same balancer:
    the results in order, the balancer and the store left, and the traces
    joined.  A call that panics is the last one made. *)
Fixpoint route_each (calls : list call) (lb : LoadBalancer) (mem : store)
    : list route_result * LoadBalancer * store * list event :=
  match calls with
  | [] => ([], lb, mem, [])
  | c :: rest =>
      let '(r, lb, mem, evs) :=
        RouteConnection (call_env c) (call_clientID c) (call_allowed c) lb mem in
      match r with
      | RoutePanic => ([r], lb, mem, evs)
      | RouteReturn _ =>
          let '(rs, lb, mem, evs') := route_each rest lb mem in
          (r :: rs, lb, mem, evs ++ evs')
      end
  end.

End Balancer.

(** ** crypto/sha256 and encoding/hex of the Go standard library

    [Sum256] is SHA-256 as FIPS 180-4 defines it, on bytes held as
    integers below 256 and 32-bit words held as integers below 2^32. *)

Module Sha256.

Local Open Scope Z_scope.

Definition add32 (a b : Z) : Z := (a + b) mod 2 ^ 32.
Definition rotr (n x : Z) : Z :=
  Z.lor (Z.shiftr x n) ((Z.shiftl x (32 - n)) mod 2 ^ 32).
Definition shr (n x : Z) : Z := Z.shiftr x n.
Definition not32 (x : Z) : Z := Z.lxor x (2 ^ 32 - 1).

Definition Ch (x y z : Z) : Z := Z.lxor (Z.land x y) (Z.land (not32 x) z).
Definition Maj (x y z : Z) : Z :=
  Z.lxor (Z.lxor (Z.land x y) (Z.land x z)) (Z.land y z).
Definition Sigma0 (x : Z) : Z := Z.lxor (Z.lxor (rotr 2 x) (rotr 13 x)) (rotr 22 x).
Definition Sigma1 (x : Z) : Z := Z.lxor (Z.lxor (rotr 6 x) (rotr 11 x)) (rotr 25 x).
Definition sigma0 (x : Z) : Z := Z.lxor (Z.lxor (rotr 7 x) (rotr 18 x)) (shr 3 x).
Definition sigma1 (x : Z) : Z := Z.lxor (Z.lxor (rotr 17 x) (rotr 19 x)) (shr 10 x).

(** The constants of the standard are fractional parts of roots of the
    first primes, which the next definitions compute. *)
Definition is_prime (n : nat) : bool :=
  forallb (fun d => negb (Nat.eqb (Nat.modulo n d) 0)) (seq 2 (n - 2)).

(** The primes from 2 to 311, sixty-four of them. *)
Definition primes : list Z := map Z.of_nat (List.filter is_prime (seq 2 310)).

(** The largest [r] below [2 ^ n] above [r0] with [r ^ 3 <= x], found bit
    by bit. *)
Fixpoint cube_root_bits (n : nat) (x r : Z) : Z :=
  match n with
  | O => r
  | S n' =>
      let r' := r + 2 ^ Z.of_nat n' in
      if r' ^ 3 <=? x then cube_root_bits n' x r' else cube_root_bits n' x r
  end.

(** The first 32 bits of the fractional part of the cube root of [p]. *)
Definition frac_cube_root (p : Z) : Z := cube_root_bits 40 (p * 2 ^ 96) 0 mod 2 ^ 32.

(** The first 32 bits of the fractional part of the square root of [p]. *)
Definition frac_square_root (p : Z) : Z := Z.sqrt (p * 2 ^ 64) mod 2 ^ 32.

(** The round constants: one per prime. *)
Definition K : list Z := Eval vm_compute in map frac_cube_root primes.

(** The initial hash value: one word per prime among the first eight. *)
Definition H0 : list Z := Eval vm_compute in map frac_square_root (firstn 8 primes).

(** The [n] low bytes of [x], most significant first. *)
Fixpoint big_endian (n : nat) (x : Z) : list Z :=
  match n with
  | O => []
  | S n' => (Z.shiftr x (8 * Z.of_nat n')) mod 256 :: big_endian n' x
  end.

(** Padding: the bit 1, zeros up to 56 modulo 64, the length in bits on
    eight bytes. *)
Definition pad (msg : list Z) : list Z :=
  let len := Z.of_nat (length msg) in
  msg ++ [0x80] ++ repeat 0 (Z.to_nat ((55 - len) mod 64))
      ++ big_endian 8 ((8 * len) mod 2 ^ 64).

(** Four bytes as one big-endian word. *)
Definition word_of (b3 b2 b1 b0 : Z) : Z :=
  Z.lor (Z.lor (Z.shiftl b3 24) (Z.shiftl b2 16)) (Z.lor (Z.shiftl b1 8) b0).

Fixpoint words_of (bytes : list Z) : list Z :=
  match bytes with
  | b3 :: b2 :: b1 :: b0 :: rest => word_of b3 b2 b1 b0 :: words_of rest
  | _ => []
  end.

(** The message schedule, latest word first: [n] more words after those
    of [w]. *)
Fixpoint extend (n : nat) (w : list Z) : list Z :=
  match n with
  | O => w
  | S n' =>
      let wt := add32 (add32 (sigma1 (nth 1 w 0)) (nth 6 w 0))
                      (add32 (sigma0 (nth 14 w 0)) (nth 15 w 0)) in
      extend n' (wt :: w)
  end.

Definition schedule (block : list Z) : list Z :=
  rev (extend 48 (rev (words_of block))).

Record regs : Type := mkRegs { ra : Z; rb : Z; rc : Z; rd : Z; re : Z; rf : Z; rg : Z; rh : Z }.

Definition round (s : regs) (kw : Z * Z) : regs :=
  let t1 := add32 (add32 (add32 (rh s) (Sigma1 (re s))) (Ch (re s) (rf s) (rg s)))
                  (add32 (fst kw) (snd kw)) in
  let t2 := add32 (Sigma0 (ra s)) (Maj (ra s) (rb s) (rc s)) in
  {| ra := add32 t1 t2; rb := ra s; rc := rb s; rd := rc s;
     re := add32 (rd s) t1; rf := re s; rg := rf s; rh := rg s |}.

Definition regs_of (h : list Z) : regs :=
  {| ra := nth 0 h 0; rb := nth 1 h 0; rc := nth 2 h 0; rd := nth 3 h 0;
     re := nth 4 h 0; rf := nth 5 h 0; rg := nth 6 h 0; rh := nth 7 h 0 |}.

Definition compress (h : list Z) (block : list Z) : list Z :=
  let s0 := regs_of h in
  let s := fold_left round (combine K (schedule block)) s0 in
  [ add32 (ra s0) (ra s); add32 (rb s0) (rb s); add32 (rc s0) (rc s);
    add32 (rd s0) (rd s); add32 (re s0) (re s); add32 (rf s0) (rf s);
    add32 (rg s0) (rg s); add32 (rh s0) (rh s) ].

(** The blocks of 64 bytes, one after the other; [n] bounds their number. *)
Fixpoint blocks (n : nat) (h : list Z) (bytes : list Z) : list Z :=
  match n with
  | O => h
  | S n' =>
      match bytes with
      | [] => h
      | _ => blocks n' (compress h (firstn 64 bytes)) (skipn 64 bytes)
      end
  end.

(** [func Sum256(data []byte) [Size]byte] *)
Definition Sum256 (data : list Z) : list Z :=
  let padded := pad data in
  flat_map (big_endian 4) (blocks (length padded) H0 padded).

End Sha256.

Module Hex.

Local Open Scope Z_scope.

(** [const hextable = "0123456789abcdef"] *)
Definition hextable : string := "0123456789abcdef".

(** [hextable[i]] *)
Definition hextable_at (i : Z) : ascii :=
  match String.get (Z.to_nat i) hextable with
  | Some c => c
  | None => Ascii.zero
  end.

(** [func EncodeToString(src []byte) string]:
    [dst[j] = hextable[v>>4]; dst[j+1] = hextable[v&0x0f]]. *)
Fixpoint EncodeToString (src : list Z) : string :=
  match src with
  | [] => EmptyString
  | v :: rest =>
      String (hextable_at (Z.shiftr v 4))
        (String (hextable_at (Z.land v 15)) (EncodeToString rest))
  end.

End Hex.

(** The conversion [[]byte(s)] of a string. *)
Definition bytes_of_string (s : string) : list Z :=
  map (λ c, Z.of_N (N_of_ascii c)) (list_ascii_of_string s).

(** A byte held in an integer. *)
Definition is_byte (b : Z) : Prop := (0 <= b < 256)%Z.

(** ** server/server.go *)

Module Server.

Import Balancer.
Local Open Scope Z_scope.

(** The two fields of [x509.Certificate] the server reads:
    [Subject.CommonName] and [SerialNumber] (a [*big.Int]). *)
Record Certificate : Type := mkCertificate {
  CommonName : string;
  SerialNumber : Z
}.

(** [type ServerConfig struct], without the TLS settings and the balancer,
    which live in the state the functions below thread. *)
Record ServerConfig : Type := mkServerConfig {
  ListenAddress : string;
  AllowedClients : gmap string bool;
  ClientBackendACL : gmap string (gset string)
}.

(** The errors the server builds with [fmt.Errorf], one constructor per
    message, and those it wraps. *)
Inductive error : Type :=
  | ErrExpectedTLS                     (* expected a TLS connection *)
  | ErrHandshake (msg : string)        (* tlsConn.Handshake() *)
  | ErrNoCertificate                   (* client did not provide a TLS certificate *)
  | ErrLacksCommonName                 (* client's TLS certificate lacks a CommonName *)
  | ErrNotAllowed (cn : string)        (* client with CommonName %s is not allowed *)
  | ErrNotListed (clientID : string)   (* client %s is not listed in the ... list *)
  | ErrAuthentication (e : error)      (* TLS authentication failed ...: %w *)
  | ErrAuthorization (cn : string) (e : error) (* authorization denied ...: %w *)
  | ErrForward (e : Balancer.error)    (* unable to forward connection ...: %w *)
  | ErrPanic.

(** [func NewServer(config *ServerConfig)]: the checks on
    the configuration; [None] when the server is built.  The two flags say
    whether [config.LoadBalancer] and [config.TLSConfig] are non-nil. *)
Definition NewServer (config : ServerConfig) (hasLoadBalancer hasTLSConfig : bool)
    : option string :=
  if decide (ListenAddress config = EmptyString) then
    Some "provided address is blank"%string
  else if negb hasLoadBalancer then
    Some "load balancer instance is required"%string
  else if negb hasTLSConfig then
    Some "TLS configuration is required"%string
  else if decide (size (AllowedClients config) = 0%nat) then
    Some "allowed clients list configuration is required"%string
  else if decide (size (ClientBackendACL config) = 0%nat) then
    Some "access control list configuration is required"%string
  else None.

(** The index expression [v, ok := m[k]] on a [map[string]bool]: the value
    (the zero value [false] for a missing key) and the presence. *)
Definition map_index (m : gmap string bool) (k : string) : bool * bool :=
  match m !! k with
  | Some v => (v, true)
  | None => (false, false)
  end.

(** [func ValidateCommonName(clientCert *x509.Certificate,
      allowedClients map[string]bool) error]; [None] is the nil error.
    The source keeps the second result of the index expression:
    [_, isAllowed := allowedClients[clientCertCN]]. *)
Definition ValidateCommonName (clientCert : Certificate)
    (allowedClients : gmap string bool) : option error :=
  let clientCertCN := CommonName clientCert in
  if decide (clientCertCN = EmptyString) then Some ErrLacksCommonName
  else
    let '(_, isAllowed) := map_index allowedClients clientCertCN in
    if negb isAllowed then Some (ErrNotAllowed clientCertCN)
    else None.

(** [fmt.Sprintf("%s:%s", cn, serialNumber)] *)
Definition Sprintf_s_colon_s (cn serialNumber : string) : string :=
  (cn ++ ":" ++ serialNumber)%string.

(** [func GenerateClientID(cn string, serialNumber string) string] *)
Definition GenerateClientID (cn : string) (serialNumber : string) : string :=
  let combined := Sprintf_s_colon_s cn serialNumber in
  let hash := Sha256.Sum256 (bytes_of_string combined) in
  let clientID := Hex.EncodeToString hash in
  clientID.

(** The client identity as the specification words it,
    [hex_lowercase(SHA-256(utf8(CN) ∥ 0x3A ∥ utf8(decimal(serial))))]:
    a Go string is its UTF-8 bytes; a byte is written as its two
    hexadecimal digits, high then low, the digits above nine being the
    lowercase letters; SHA-256 is the function of FIPS 180-4. *)
Definition utf8 (s : string) : list Z :=
  map (λ b, Z.of_N (Byte.to_N b)) (list_byte_of_string s).

Definition lowercase_hex_digit (d : Z) : ascii :=
  if d <? 10 then ascii_of_N (Z.to_N (48 + d))
  else ascii_of_N (Z.to_N (97 + (d - 10))).

Fixpoint hex_lowercase (bytes : list Z) : string :=
  match bytes with
  | [] => EmptyString
  | b :: rest =>
      String (lowercase_hex_digit (b / 16))
        (String (lowercase_hex_digit (b mod 16)) (hex_lowercase rest))
  end.

Definition clientID_spec (cn serial : string) : string :=
  hex_lowercase (Sha256.Sum256 (utf8 cn ++ [0x3A] ++ utf8 serial)).

(** [func AuthorizeClient(clientID string,
      clientBackendACL map[string]map[string]struct{})] *)
Definition AuthorizeClient (clientID : string)
    (clientBackendACL : gmap string (gset string)) : gset string + error :=
  match clientBackendACL !! clientID with
  | Some allowedBackends => inl allowedBackends
  | None => inr (ErrNotListed clientID)
  end.

(** An accepted connection, as far as authentication looks at it: whether
    it is a [*tls.Conn], how the handshake ends, and the peer certificates
    of its connection state. *)
Record conn : Type := mkConn {
  conn_is_tls : bool;
  conn_handshake : option string;
  conn_peer_certificates : list Certificate
}.

(** [func GetClientCertificate(tlsConn *tls.Conn)], giving the first peer
    certificate or an error. *)
Definition GetClientCertificate (c : conn) : Certificate + error :=
  match conn_peer_certificates c with
  | [] => inr ErrNoCertificate
  | cert :: _ => inl cert
  end.

(** [func AuthenticateClient(clientConn net.Conn,
      allowedClients map[string]bool)], giving the verified certificate
    or an error. *)
Definition AuthenticateClient (clientConn : conn)
    (allowedClients : gmap string bool) : Certificate + error :=
  if negb (conn_is_tls clientConn) then inr ErrExpectedTLS
  else
    match conn_handshake clientConn with
    | Some msg => inr (ErrHandshake msg)
    | None =>
        match GetClientCertificate clientConn with
        | inr err => inr err
        | inl clientCert =>
            match ValidateCommonName clientCert allowedClients with
            | Some err => inr err
            | None => inl clientCert
            end
        end
    end.

(** [String()] of a [*big.Int]: the decimal digits, after a minus sign for a
    negative number. *)
Definition big_Int_String (n : Z) : string :=
  NilZero.string_of_int (Z.to_int n).

(** [func (s *Server) handleConnection(clientConn net.Conn) error] *)
Definition handleConnection (e : env) (config : ServerConfig) (clientConn : conn)
    (lb : LoadBalancer) (mem : store)
    : option error * LoadBalancer * store * list event :=
  match AuthenticateClient clientConn (AllowedClients config) with
  | inr err => (Some (ErrAuthentication err), lb, mem, [])
  | inl clientCert =>
      let clientID :=
        GenerateClientID (CommonName clientCert)
                         (big_Int_String (SerialNumber clientCert)) in
      match AuthorizeClient clientID (ClientBackendACL config) with
      | inr err => (Some (ErrAuthorization (CommonName clientCert) err), lb, mem, [])
      | inl allowedBackends =>
          match RouteConnection e clientID allowedBackends lb mem with
          | (RouteReturn (Some err), lb, mem, evs) => (Some (ErrForward err), lb, mem, evs)
          | (RouteReturn None, lb, mem, evs) => (None, lb, mem, evs)
          | (RoutePanic, lb, mem, evs) => (Some ErrPanic, lb, mem, evs)
          end
      end
  end.

(** *** The accept loop *)

(** What [s.listener.Accept()] returns. *)
Inductive accept_result : Type :=
  | Accepted (c : conn)
  | AcceptFailed (msg : string).

(** When, in one turn of the loop, another goroutine runs [Stop], which
    stores [true] in [s.shutdown] and then closes the listener. *)
Inductive stop_point : Type :=
  | NoStop
  | StopBeforeCheck    (* before the loop reads [s.shutdown] *)
  | StopDuringAccept.  (* while the loop is blocked in [Accept] *)

(** One turn of the loop as the environment shapes it: what the open
    listener would hand over, and whether [Stop] runs. *)
Record turn : Type := mkTurn {
  turn_listener : accept_result;
  turn_stop : stop_point
}.

(** What the loop does that an observer sees. *)
Inductive accept_event : Type :=
  | EvRetryCount (n : nat)        (* retryCount++, its new value *)
  | EvLogAcceptError (msg : string)
  | EvSleep (shutdown : bool)     (* time.Sleep(retryDelay), and the flag then *)
  | EvHandle (c : conn)           (* go func() { s.handleConnection(conn) } *)
  | EvFatal (msg : string).       (* log.Fatalf: the process exits with status 1 *)

(** How far the loop got on the turns given. *)
Inductive loop_state : Type :=
  | LoopExited                    (* the condition saw the flag; wg.Done() *)
  | LoopFatal                     (* log.Fatalf *)
  | LoopRunning (shutdown : bool) (retryCount : nat).

Definition retryLimit : nat := 5.

(** The error of [Accept] on a listener that [Close] has shut. *)
Definition closed_listener : string := "use of closed network connection".

(** [Accept] in a turn: a closed listener fails, an open one answers. *)
Definition accept (shutdown : bool) (t : turn) : accept_result :=
  if shutdown then AcceptFailed closed_listener else turn_listener t.

(** [func (s *Server) acceptConnections()]: the loop
    [for !s.shutdown.Load() { conn, err := s.listener.Accept(); ... }]
    from the flag [shutdown] and the count [retryCount], over the turns the
    environment allows. *)
Fixpoint acceptConnections (shutdown : bool) (retryCount : nat) (turns : list turn)
    : list accept_event * loop_state :=
  match turns with
  | [] => ([], LoopRunning shutdown retryCount)
  | t :: rest =>
      let shutdown :=
        match turn_stop t with StopBeforeCheck => true | _ => shutdown end in
      if shutdown then ([], LoopExited)
      else
        let shutdown :=
          match turn_stop t with StopDuringAccept => true | _ => shutdown end in
        match accept shutdown t with
        | AcceptFailed err =>
            if (retryCount <? retryLimit)%nat then
              let '(evs, st) := acceptConnections shutdown (S retryCount) rest in
              (EvRetryCount (S retryCount) :: EvLogAcceptError err
                 :: EvSleep shutdown :: evs, st)
            else ([EvFatal err], LoopFatal)
        | Accepted c =>
            let '(evs, st) := acceptConnections shutdown 0%nat rest in
            (EvHandle c :: evs, st)
        end
  end.

(** The connections a trace of the loop hands to [handleConnection]. *)
Fixpoint handled (evs : list accept_event) : list conn :=
  match evs with
  | [] => []
  | EvHandle c :: rest => c :: handled rest
  | _ :: rest => handled rest
  end.

(** The connections the listener holds ready over the turns. *)
Fixpoint offered (turns : list turn) : list conn :=
  match turns with
  | [] => []
  | t :: rest =>
      match turn_listener t with
      | Accepted c => c :: offered rest
      | AcceptFailed _ => offered rest
      end
  end.

(** How often a trace of the loop sleeps. *)
Fixpoint sleeps (evs : list accept_event) : nat :=
  match evs with
  | [] => O
  | EvSleep _ :: rest => S (sleeps rest)
  | _ :: rest => sleeps rest
  end.

(** [Accept] fails in the turn: the listener fails, or [Stop] closes it
    under the loop. *)
Definition accept_fails (t : turn) : bool :=
  match turn_stop t, turn_listener t with
  | StopDuringAccept, _ => true
  | _, AcceptFailed _ => true
  | _, Accepted _ => false
  end.

(** A digit or a letter from a to f. *)
Definition is_lower_hex (c : ascii) : bool :=
  let n := N_of_ascii c in
  ((48 <=? n) && (n <=? 57) || (97 <=? n) && (n <=? 102))%N.

(** The string holds no colon. *)
Fixpoint no_colon (s : string) : bool :=
  match s with
  | EmptyString => true
  | String c s' => negb (Ascii.eqb c ":") && no_colon s'
  end.

(** What [handleConnection] hashes for a certificate: the CommonName, a
    colon and the decimal serial number. *)
Definition identity_text (cert : Certificate) : string :=
  Sprintf_s_colon_s (CommonName cert) (big_Int_String (SerialNumber cert)).

End Server.

(** ** main.go *)

Module Main.

Local Open Scope Z_scope.
Local Open Scope string_scope.

(** *** package flag, for the one string flag [-config] *)

(** How [flag.Parse()] ends under [flag.ExitOnError]. *)
Inductive parse_result : Type :=
  | Parsed (configFileFlag : string)
  | ParseHelp                 (* -h or -help: usage, os.Exit(0) *)
  | ParseError (msg : string). (* message and usage, os.Exit(2) *)

(** [name] cut at its first [=], which may not be its first byte. *)
Fixpoint cut_equals (s : string) : option (string * string) :=
  match s with
  | EmptyString => None
  | String c s' =>
      if Ascii.eqb c "="%char then Some (EmptyString, s')
      else match cut_equals s' with
           | Some (name, value) => Some (String c name, value)
           | None => None
           end
  end.

Definition name_and_value (name : string) : string * option string :=
  match name with
  | EmptyString => (name, None)
  | String c s' =>
      match cut_equals s' with
      | Some (n, v) => (String c n, Some v)
      | None => (name, None)
      end
  end.

(** The flag syntax of one argument: not a flag (parsing stops), the
    terminator [--], a malformed flag, or a flag name. *)
Inductive flag_syntax : Type :=
  | NotAFlag
  | Terminator
  | BadSyntax
  | FlagName (name : string).

Definition flag_syntax_of (s : string) : flag_syntax :=
  match s with
  | String "-" (String "-" EmptyString) => Terminator
  | String "-" (String "-" name) =>
      match name with
      | String "-" _ | String "=" _ => BadSyntax
      | _ => FlagName name
      end
  | String "-" (String "=" _) => BadSyntax
  | String "-" (String c name) => FlagName (String c name)
  | _ => NotAFlag
  end.

(** [func (f *FlagSet) Parse(arguments []string) error] with the loop of
    [parseOne]; [n] bounds the number of arguments left. *)
Fixpoint Parse (n : nat) (configFileFlag : string) (args : list string) : parse_result :=
  match n, args with
  | O, _ | _, [] => Parsed configFileFlag
  | S n', s :: rest =>
      match flag_syntax_of s with
      | NotAFlag | Terminator => Parsed configFileFlag
      | BadSyntax => ParseError ("bad flag syntax: " ++ s)
      | FlagName name =>
          let '(name, value) := name_and_value name in
          if String.eqb name "config" then
            match value, rest with
            | Some v, _ => Parse n' v rest
            | None, v :: rest' => Parse (Nat.pred n') v rest'
            | None, [] => ParseError ("flag needs an argument: -" ++ name)
            end
          else if String.eqb name "help" || String.eqb name "h" then ParseHelp
          else ParseError ("flag provided but not defined: -" ++ name)
      end
  end.

(** *** main *)

(** What the process writes. *)
Inductive output : Type :=
  | Println (line : string)      (* fmt.Println, on standard output *)
  | FlagError (line : string)    (* the message of package flag, on standard error *)
  | Usage                        (* flag.Usage(): the line Usage: and the defaults *)
  | LogPrintln (line : string)   (* log.Println and log.Printf *)
  | LogFatal (line : string).    (* log.Fatal(err): the line, then os.Exit(1) *)

(** [config.AppConfig], as far as [main] reads it. *)
Record AppConfig : Type := mkAppConfig {
  Port : Z;
  Backends : list string;
  RateLimiter_Capacity : Z;
  RateLimiter_RefillRate : Z;
  AllowedClients : gmap string bool;
  ClientBackendACL : gmap string (list string)
}.

(** What [main] meets outside this file: the configuration loader and the
    TLS set-up of package config, the listener of [Start], and whether
    [Stop] returns in time once the signal has come. *)
Record world : Type := mkWorld {
  LoadAppConfig : string -> AppConfig + string;
  MakeServerTLSConfig : option string;
  tls_Listen : option string;
  Stop_result : option string
}.

(** [func mapSliceToMapSet(mapSlice map[string][]string)
      map[string]map[string]struct{}] *)
Definition mapSliceToMapSet (mapSlice : gmap string (list string))
    : gmap string (gset string) :=
  list_to_set <$> mapSlice.

(** The lines [log.Printf("%d: %s\n", i+1, address)] of the loop over
    [appConfig.Backends], from index [i]. *)
Fixpoint log_backends (i : Z) (addresses : list string) : list output :=
  match addresses with
  | [] => []
  | address :: rest =>
      LogPrintln (Server.big_Int_String (i + 1) ++ ": " ++ address)
        :: log_backends (i + 1) rest
  end.

(** [fmt.Sprintf(":%d", appConfig.Port)] *)
Definition listenAddr (port : Z) : string := ":" ++ Server.big_Int_String port.

(** [func main()] on the arguments after the program name: what it prints
    and the exit status of the process.  Returning from [main] ends the
    process with status 0; [log.Fatal] ends it with status 1; package flag
    ends it with status 0 after a request for help and 2 after an error. *)
Definition main (args : list string) (w : world) : list output * Z :=
  match Parse (length args) EmptyString args with
  | ParseHelp => ([Usage], 0)
  | ParseError msg => ([FlagError msg; Usage], 2)
  | Parsed configFileFlag =>
      if decide (configFileFlag = EmptyString) then
        ([Println "Error: Configuration file not provided"; Usage], 0)
      else
        match LoadAppConfig w configFileFlag with
        | inr err => ([LogFatal err], 1)
        | inl appConfig =>
            let out :=
              LogPrintln "Backend Servers:" :: log_backends 0 (Backends appConfig) in
            match MakeServerTLSConfig w with
            | Some err => ((out ++ [LogFatal err])%list, 1)
            | None =>
                let serverConfig :=
                  {| Server.ListenAddress := listenAddr (Port appConfig);
                     Server.AllowedClients := AllowedClients appConfig;
                     Server.ClientBackendACL :=
                       mapSliceToMapSet (ClientBackendACL appConfig) |} in
                match Server.NewServer serverConfig true true with
                | Some err => ((out ++ [LogFatal err])%list, 1)
                | None =>
                    match tls_Listen w with
                    | Some err => ((out ++ [LogFatal err])%list, 1)
                    | None =>
                        let out := (out ++ [LogPrintln "Shutting down the server..."])%list in
                        match Stop_result w with
                        | Some err => ((out ++ [LogFatal err])%list, 1)
                        | None => ((out ++ [LogPrintln "Server stopped."])%list, 0)
                        end
                    end
                end
            end
        end
  end.

End Main.


(** ** Values of the tests (lib/load-balancer_test.go, lib/rate-limiter_test.go) *)

Module Fixtures.

Import Balancer.
Local Open Scope Z_scope.

(** [backend1 := Backend{Address: "127.0.0.1:5001"}] and [backend2]. *)
Definition backend1 : Backend := {| Address := "127.0.0.1:5001"; connections := 0 |}.
Definition backend2 : Backend := {| Address := "127.0.0.1:5002"; connections := 0 |}.

(** The two backends, at the addresses 1 and 2 of the store. *)
Definition mem12 : store := {[1%positive := backend1; 2%positive := backend2]}.

(** [allowedBackends] of the test that retrieves a backend. *)
Definition allowed12 : gset string := {["127.0.0.1:5001"; "127.0.0.1:5002"]}.

(** A balancer with both backends registered and the rate limiter of the
    given capacity, refilled once per second. *)
Definition lb12 (capacity : Z) : LoadBalancer :=
  {| backends := AddBackend 2%positive (AddBackend 1%positive []);
     rateLimiter := RateLimiter.newRateLimiter capacity 1 |}.

(** [mockDialer]: every dial succeeds and the relay ends without error;
    the clock stands at 0. *)
Definition mockEnv : env :=
  {| env_oor := fun _ => 0;
     env_clock := RateLimiter.mkClock 0 0;
     env_dial := fun _ => DialOk;
     env_relay := mkRelay None None true |}.

(** A dialer that reaches no backend. *)
Definition refusedEnv : env :=
  {| env_oor := fun _ => 0;
     env_clock := RateLimiter.mkClock 0 0;
     env_dial := fun _ => DialFail "connection refused";
     env_relay := mkRelay None None true |}.

(** A turn in which the loop is not told to stop and the listener fails. *)
Definition failing_turn : Server.turn :=
  {| Server.turn_listener := Server.AcceptFailed "too many open files"; Server.turn_stop := Server.NoStop |}.

(** A certificate, a TLS connection that presents it, and a server
    configuration that lists its holder with both backends. *)
Definition cert1 : Server.Certificate :=
  Server.mkCertificate "client1.example.com" 1.

Definition conn1 : Server.conn := Server.mkConn true None [cert1].

Definition serverConfig1 : Server.ServerConfig :=
  Server.mkServerConfig ":3003" {["client1.example.com"%string := true]}
    {[Server.GenerateClientID "client1.example.com" "1" := allowed12]}.

(** Three turns without failure, the third with [Stop] before the check. *)
Definition turns_with_stop : list Server.turn :=
  [Server.mkTurn (Server.Accepted conn1) Server.NoStop;
   failing_turn;
   Server.mkTurn (Server.Accepted conn1) Server.StopBeforeCheck;
   Server.mkTurn (Server.Accepted conn1) Server.NoStop].

(** A configuration file as [main] reads it, and a world in which it
    loads and nothing fails. *)
Definition appConfig1 : Main.AppConfig :=
  {| Main.Port := 3003;
     Main.Backends := ["127.0.0.1:5001"%string; "127.0.0.1:5002"%string];
     Main.RateLimiter_Capacity := 5;
     Main.RateLimiter_RefillRate := 1;
     Main.AllowedClients := {["client1.example.com"%string := true]};
     Main.ClientBackendACL :=
       {[Server.GenerateClientID "client1.example.com" "1"
           := ["127.0.0.1:5001"%string; "127.0.0.1:5002"%string]]} |}.

Definition world1 : Main.world :=
  {| Main.LoadAppConfig := fun _ => inl appConfig1;
     Main.MakeServerTLSConfig := None;
     Main.tls_Listen := None;
     Main.Stop_result := None |}.

End Fixtures.

(** * Properties *)

(** ** Fixed-width integers *)

Module IntFacts.

Import Int.
Local Open Scope Z_scope.

Lemma wrap_int64_id z : is_int64 z -> wrap_int64 z = z.
Proof.
  unfold is_int64, wrap_int64, min_int64, max_int64. intros Hz.
  rewrite Z.mod_small; lia.
Qed.

Lemma wrap_int64_range z : is_int64 (wrap_int64 z).
Proof.
  unfold is_int64, wrap_int64, min_int64, max_int64.
  pose proof (Z.mod_pos_bound (z + 2 ^ 63) (2 ^ 64)). lia.
Qed.

Lemma wrap_int64_succ_pred z :
  is_int64 z -> wrap_int64 (wrap_int64 (z + 1) + -1) = z.
Proof.
  unfold is_int64, wrap_int64, min_int64, max_int64. intros Hz.
  replace ((z + 1 + 2 ^ 63) mod 2 ^ 64 - 2 ^ 63 + -1 + 2 ^ 63)
    with ((z + 1 + 2 ^ 63) mod 2 ^ 64 + -1) by lia.
  rewrite Zplus_mod_idemp_l.
  replace (z + 1 + 2 ^ 63 + -1) with (z + 2 ^ 63) by lia.
  rewrite Z.mod_small; lia.
Qed.

Lemma wrap_int64_succ z :
  min_int64 <= z < max_int64 -> wrap_int64 (z + 1) = z + 1.
Proof.
  intros Hz. apply wrap_int64_id. unfold is_int64, min_int64, max_int64 in *. lia.
Qed.

Lemma wrap_uint64_id z : is_uint64 z -> wrap_uint64 z = z.
Proof.
  unfold is_uint64, wrap_uint64, max_uint64. intros Hz.
  rewrite Z.mod_small; lia.
Qed.

Lemma wrap_uint64_range z : is_uint64 (wrap_uint64 z).
Proof.
  unfold is_uint64, wrap_uint64, max_uint64.
  pose proof (Z.mod_pos_bound z (2 ^ 64)). lia.
Qed.

End IntFacts.

(** ** The backend registry *)

Module BalancerFacts.

Import Int IntFacts Balancer.
Local Open Scope Z_scope.

(** *** The selection loop *)

Lemma all_above_nil strict mem allowed c : all_above strict mem allowed [] c.
Proof. intros q b Hq. by apply elem_of_nil in Hq. Qed.

Lemma all_above_cons (strict : bool) (mem : store) allowed (p : ptr) l c :
  (∀ b, mem !! p = Some b → Address b ∈ allowed →
        if strict then c < connections b else c <= connections b) →
  all_above strict mem allowed l c →
  all_above strict mem allowed (p :: l) c.
Proof.
  intros Hp Hl q b Hq Hb Ha. apply elem_of_cons in Hq as [-> | Hq].
  - by apply Hp.
  - by apply (Hl q).
Qed.

Lemma all_above_weaken mem allowed l c c' :
  c' <= c → all_above false mem allowed l c → all_above false mem allowed l c'.
Proof. intros Hc Hl q b Hq Hb Ha. specialize (Hl q b Hq Hb Ha). simpl in *. lia. Qed.

Lemma none_allowed_cons (mem : store) allowed (p : ptr) b l :
  mem !! p = Some b → Address b ∉ allowed →
  none_allowed mem allowed l → none_allowed mem allowed (p :: l).
Proof.
  intros Hp Hn Hl q b' Hq Hb'. apply elem_of_cons in Hq as [-> | Hq]; [|eauto].
  congruence.
Qed.


Lemma scan_spec mem allowed bs :
  ∀ sel least s l evs,
    scan mem allowed bs sel least = Some (s, l, evs) →
    scan_post mem allowed bs sel least s l.
Proof.
  induction bs as [|p bs IH]; intros sel least s l evs H; simpl in H.
  - injection H as <- <- _. left. split; [done|].
    destruct sel; [split; [done|apply all_above_nil] | intros q b Hq; by apply elem_of_nil in Hq].
  - destruct (mem !! p) as [b|] eqn:Hp; [|done].
    destruct (decide (Address b ∈ allowed)) as [Ha|Hna].
    + (* the client may use [p] *)
      assert (Hpick : ∀ s l evs,
                 scan mem allowed bs (Some p) (connections b) = Some (s, l, evs) →
                 match sel with None => True | Some _ => connections b < least end →
                 scan_post mem allowed (p :: bs) sel least s l).
      { clear H s l evs. intros s l evs H Hlt. apply IH in H as [[-> [-> Hall]] | H].
        - right. exists p, [], bs, b. repeat split; try done. apply all_above_nil.
        - destruct H as (r & pre & post & b' & -> & -> & Hr & Har & <- & Hl & Hpre & Hpost).
          right. exists r, (p :: pre), post, b'. repeat split; try done.
          + destruct sel; [lia|done].
          + apply all_above_cons; [|done]. intros b0 Hb0 _. simpl. congruence. }
      destruct sel as [q|].
      * destruct (connections b <? least) eqn:Hlt.
        -- destruct (scan mem allowed bs (Some p) (connections b)) as [[[s' l'] evs']|] eqn:Hs;
             [|done]. simpl in H. injection H as <- <- _.
           eapply Hpick; [done|]. by apply Z.ltb_lt.
        -- destruct (scan mem allowed bs (Some q) least) as [[[s' l'] evs']|] eqn:Hs;
             [|done]. simpl in H. injection H as <- <- _.
           apply Z.ltb_ge in Hlt.
           apply IH in Hs as [[-> [-> Hall]] | Hs].
           ++ left. repeat split; try done. apply all_above_cons; [|done].
              intros b0 Hb0 _. simpl. congruence.
           ++ destruct Hs as (r & pre & post & b' & -> & -> & Hr & Har & <- & Hl & Hpre & Hpost).
              right. exists r, (p :: pre), post, b'. repeat split; try done.
              apply all_above_cons; [|done]. intros b0 Hb0 _. simpl.
              assert (b0 = b) as -> by congruence. lia.
      * destruct (scan mem allowed bs (Some p) (connections b)) as [[[s' l'] evs']|] eqn:Hs;
          [|done]. simpl in H. injection H as <- <- _.
        eapply Hpick; done.
    + (* the client may not use [p] *)
      apply IH in H as [[-> Hsel] | H].
      * left. split; [done|]. destruct sel.
        -- destruct Hsel as [-> Hall]. split; [done|]. apply all_above_cons; [|done].
           intros b0 Hb0 Ha0. assert (b0 = b) as -> by congruence. done.
        -- by eapply none_allowed_cons.
      * destruct H as (r & pre & post & b' & -> & -> & Hr & Har & <- & Hl & Hpre & Hpost).
        right. exists r, (p :: pre), post, b'. repeat split; try done.
        apply all_above_cons; [|done].
        intros b0 Hb0 Ha0. assert (b0 = b) as -> by congruence. done.
Qed.

(** The loop panics only on a nil pointer. *)
Lemma scan_live mem allowed bs :
  registered_live bs mem →
  ∀ sel least, is_Some (scan mem allowed bs sel least).
Proof.
  induction bs as [|p bs IH]; intros Hlive sel least; simpl; [eauto|].
  assert (Hbs : registered_live bs mem).
  { intros q Hq. apply Hlive. by apply elem_of_cons; right. }
  destruct (Hlive p) as [b ->]; [by apply elem_of_cons; left|].
  destruct (decide (Address b ∈ allowed)); [|by apply IH].
  destruct sel.
  - destruct (connections b <? least).
    + destruct (IH Hbs (Some p) (connections b)) as [[[s l] evs] ->]. simpl. eauto.
    + destruct (IH Hbs (Some p0) least) as [[[s l] evs] ->]. simpl. eauto.
  - destruct (IH Hbs (Some p) (connections b)) as [[[s l] evs] ->]. simpl. eauto.
Qed.

(** The loop only reads counters. *)
Lemma scan_reads_only mem allowed bs :
  ∀ sel least s l evs,
    scan mem allowed bs sel least = Some (s, l, evs) →
    ∀ p d, count_add p d evs = O.
Proof.
  induction bs as [|q bs IH]; intros sel least s l evs H p d; simpl in H.
  - by injection H as _ _ <-.
  - destruct (mem !! q) as [b|]; [|done].
    destruct (decide (Address b ∈ allowed)); [|by eapply IH].
    destruct sel as [q'|]; [destruct (connections b <? least)|].
    all: match type of H with
         | context [scan ?m ?a ?b ?s ?l] =>
             destruct (scan m a b s l) as [[[s' l'] evs']|] eqn:Hs; [|done]
         end; simpl in H; injection H as <- <- <-; simpl; by eapply IH.
Qed.


(** *** GetBackend *)

Lemma GetBackend_ok_inv backends allowed (mem : store) B mem' evs :
  GetBackend backends allowed mem = (GetOk B, mem', evs) →
  ∃ l evs0 b,
    scan mem allowed backends None 0 = Some (Some B, l, evs0) ∧
    mem !! B = Some b ∧
    mem' = <[B := add_connections 1 b]> mem ∧
    evs = evs0 ++ [EvAdd B 1].
Proof.
  unfold GetBackend. destruct backends as [|p bs]; [done|].
  destruct (scan mem allowed (p :: bs) None 0) as [[[[s|] l] evs0]|]; [|done..].
  unfold incrementConnections. destruct (mem !! s) as [b|] eqn:Hs; [|done].
  intros [= <- <- <-]. by exists l, evs0, b.
Qed.


(** C1, counterexample: with the only backend at 2^63 - 1 connections,
    [GetBackend] selects it and its counter wraps to -2^63, which is not
    the observed value plus one; so the last part of the property does
    not hold of every call. *)
Lemma GetBackend_increment_wraps :
  let b := {| Address := "127.0.0.1:5001"; connections := 2 ^ 63 - 1 |} in
  let mem : store := {[1%positive := b]} in
  let mem' : store :=
    {[1%positive := {| Address := "127.0.0.1:5001"; connections := - 2 ^ 63 |}]} in
  GetBackend [1%positive] {["127.0.0.1:5001"]} mem
  = (GetOk 1%positive, mem', [EvLoad 1%positive; EvAdd 1%positive 1]) ∧
  ConnectionCount 1%positive mem = Some (2 ^ 63 - 1) ∧
  ConnectionCount 1%positive mem' = Some (- 2 ^ 63) ∧
  ¬ post_is_observed_plus_one.
Proof.
  split; [reflexivity|]. split; [reflexivity|]. split; [reflexivity|].
  intros H.
  destruct (H [1%positive] {["127.0.0.1:5001"]}
              {[1%positive := mkBackend "127.0.0.1:5001" (2 ^ 63 - 1)]}
              {[1%positive := mkBackend "127.0.0.1:5001" (- 2 ^ 63)]} 1%positive
              [EvLoad 1%positive; EvAdd 1%positive 1])
    as (b0 & b' & Hb0 & Hb' & Heq).
  - by vm_compute.
  - rewrite lookup_singleton_eq in Hb0. rewrite lookup_singleton_eq in Hb'.
    injection Hb0 as <-. injection Hb' as <-. vm_compute in Heq. discriminate.
Qed.

(** C1 (amended): a successful [GetBackend] returns a registered backend
    [B] whose address is allowed and whose observed counter is least among
    the allowed registered backends: strictly below the counter of every
    allowed backend registered before it, and at most that of every one
    registered after it, so that of several at the minimum the first
    registered wins.  The call adds one to the counter of [B], once: on
    return the counter is the int64 sum of the observed value and one,
    which is the observed value plus one unless the observed value is
    2^63 - 1; no other backend changes. *)
Theorem GetBackend_least_connections backends allowed (mem mem' : store) B evs :
  GetBackend backends allowed mem = (GetOk B, mem', evs) →
  ∃ pre post b b',
    backends = pre ++ B :: post ∧
    mem !! B = Some b ∧
    Address b ∈ allowed ∧
    all_above true mem allowed pre (connections b) ∧
    all_above false mem allowed post (connections b) ∧
    mem' !! B = Some b' ∧
    Address b' = Address b ∧
    connections b' = wrap_int64 (connections b + 1) ∧
    (min_int64 <= connections b < max_int64 →
     connections b' = connections b + 1) ∧
    (∀ q, q ≠ B → mem' !! q = mem !! q) ∧
    count_add B 1 evs = 1%nat.
Proof.
  intros H. apply GetBackend_ok_inv in H as (l & evs0 & b & Hscan & Hb & -> & ->).
  pose proof (scan_reads_only _ _ _ _ _ _ _ _ Hscan B 1) as Hreads.
  apply scan_spec in Hscan as [[? _] | Hscan]; [done|].
  destruct Hscan as (r & pre & post & b' & [= <-] & -> & Hr & Har & <- & _ & Hpre & Hpost).
  assert (b' = b) as -> by congruence.
  exists pre, post, b, (add_connections 1 b). repeat split; try done.
  - apply lookup_insert_eq.
  - intros Hrange. simpl. by apply wrap_int64_succ.
  - intros q Hq. by apply lookup_insert_ne.
  - clear -Hreads. induction evs0 as [|ev evs0 IH]; simpl in *.
    + by rewrite decide_True.
    + destruct ev; try by apply IH.
      destruct (decide (p = B ∧ d = 1)); [done|by apply IH].
Qed.

(** A run of C1: two backends at 0 and 0 connections, both allowed; the
    first registered is chosen and leaves with one connection. *)
Lemma GetBackend_least_connections_witness :
  ∃ pre post b b',
    [1%positive; 2%positive] = pre ++ 1%positive :: post ∧
    ({[1%positive := mkBackend "127.0.0.1:5001" 0;
       2%positive := mkBackend "127.0.0.1:5002" 0]} : store) !! 1%positive = Some b ∧
    ({[1%positive := mkBackend "127.0.0.1:5001" 1;
       2%positive := mkBackend "127.0.0.1:5002" 0]} : store) !! 1%positive = Some b' ∧
    connections b' = wrap_int64 (connections b + 1).
Proof.
  destruct (GetBackend_least_connections [1%positive; 2%positive]
              {["127.0.0.1:5001"; "127.0.0.1:5002"]}
              {[1%positive := mkBackend "127.0.0.1:5001" 0;
                2%positive := mkBackend "127.0.0.1:5002" 0]}
              {[1%positive := mkBackend "127.0.0.1:5001" 1;
                2%positive := mkBackend "127.0.0.1:5002" 0]}
              1%positive [EvLoad 1%positive; EvLoad 2%positive; EvAdd 1%positive 1])
    as (pre & post & b & b' & H1 & H2 & _ & _ & _ & H3 & _ & H4 & _).
  - by vm_compute.
  - exists pre, post, b, b'. auto.
Defined.

(** C5: [GetBackend] returns [ErrNoRegisteredBackends] exactly when
    nothing is registered; it returns [ErrNoAvailableBackend] only when
    something is registered and no registered backend has an allowed
    address, and it does return it then, the registered pointers being
    live backends; when it returns an error the store of counters is the
    one it was called on and no counter has been added to. *)
Theorem GetBackend_errors backends allowed (mem mem' : store) r evs :
  GetBackend backends allowed mem = (r, mem', evs) →
  (r = GetErr ErrNoRegisteredBackends ↔ backends = []) ∧
  (r = GetErr ErrNoAvailableBackend →
     backends ≠ [] ∧ none_allowed mem allowed backends) ∧
  (registered_live backends mem →
     backends ≠ [] → none_allowed mem allowed backends →
     r = GetErr ErrNoAvailableBackend) ∧
  (∀ e, r = GetErr e → mem' = mem ∧ ∀ p d, count_add p d evs = O).
Proof.
  intros H. unfold GetBackend in H.
  destruct backends as [|p bs].
  { injection H as <- <- <-. repeat split; try done. }
  destruct (scan mem allowed (p :: bs) None 0) as [[[s l] evs0]|] eqn:Hscan.
  - pose proof (scan_reads_only _ _ _ _ _ _ _ _ Hscan) as Hreads.
    apply scan_spec in Hscan as Hpost.
    destruct s as [B|].
    + (* a backend is selected *)
      destruct Hpost as [[? _] | Hpost]; [done|].
      destruct Hpost as (r0 & pre & post & b & [= <-] & Hbs & Hb & Ha & _).
      unfold incrementConnections in H. rewrite Hb in H. injection H as <- <- <-.
      repeat split; try done.
      intros _ _ Hnone. exfalso. eapply (Hnone B b); [|done..].
      rewrite Hbs. apply elem_of_app. right. by apply elem_of_cons; left.
    + (* none is *)
      injection H as <- <- <-.
      destruct Hpost as [[_ Hnone] | (r0 & ? & ? & ? & ? & _)]; [|done].
      repeat split; try done.
  - (* a nil pointer *)
    injection H as <- <- <-. repeat split; try done.
    intros Hlive _ _. destruct (scan_live mem allowed (p :: bs) Hlive None 0) as [? Hs].
    congruence.
Qed.

(** A run of C5: one backend registered, none allowed; from the error
    returned, the registry is not empty and offers the client nothing. *)
Lemma GetBackend_errors_witness :
  [1%positive] ≠ [] ∧
  none_allowed {[1%positive := mkBackend "127.0.0.1:5001" 0]} {["x:1"]} [1%positive].
Proof.
  destruct (GetBackend_errors [1%positive] {["x:1"]}
              {[1%positive := mkBackend "127.0.0.1:5001" 0]}
              {[1%positive := mkBackend "127.0.0.1:5001" 0]}
              (GetErr ErrNoAvailableBackend) []) as (_ & H2 & _).
  - by vm_compute.
  - by apply H2.
Defined.

End BalancerFacts.

(** ** binary64 *)

Module Float64Facts.

Import Int Float64.
Local Open Scope Z_scope.

(** *** Shifting and rounding keep a mantissa non-negative and bounded *)

Lemma digits2_pos_size p : digits2_pos p = Pos.size p.
Proof. induction p; simpl; congruence. Qed.

Lemma Zdigits2_le m k : 0 <= k -> 0 <= m < 2 ^ k -> Zdigits2 m <= k.
Proof.
  intros Hk [Hm Hlt]. destruct m as [|p|p]; simpl; [lia| |lia].
  rewrite digits2_pos_size.
  pose proof (Pos.size_le p) as Hle.
  apply Pos2Z.pos_le_pos in Hle. rewrite Pos2Z.inj_pow in Hle.
  change (Z.pos p~0) with (2 * Z.pos p) in Hle.
  assert (H : 2 ^ Z.pos (Pos.size p) < 2 ^ (k + 1)).
  { rewrite Z.pow_add_r by lia. lia. }
  apply Z.pow_lt_mono_r_iff in H; lia.
Qed.

Lemma shr_1_bounds mrs :
  0 <= shr_m mrs -> 0 <= shr_m (shr_1 mrs) <= shr_m mrs.
Proof.
  destruct mrs as [m r s]. simpl. intros Hm.
  destruct m as [|[p|p|]|p]; simpl; lia.
Qed.

Lemma iter_pos_shr_1_bounds n mrs :
  0 <= shr_m mrs -> 0 <= shr_m (SpecFloat.iter_pos shr_1 n mrs) <= shr_m mrs.
Proof.
  revert mrs. induction n as [n IH|n IH|]; intros mrs Hm; simpl.
  - pose proof (shr_1_bounds mrs Hm) as H1.
    pose proof (IH (shr_1 mrs) (proj1 H1)) as H2.
    pose proof (IH _ (proj1 H2)) as H3. lia.
  - pose proof (IH mrs Hm) as H1.
    pose proof (IH _ (proj1 H1)) as H2. lia.
  - by apply shr_1_bounds.
Qed.

Lemma shr_bounds mrs e n mrs' e' :
  shr mrs e n = (mrs', e') ->
  0 <= shr_m mrs ->
  0 <= shr_m mrs' <= shr_m mrs /\ e' <= Z.max e (e + n).
Proof.
  unfold shr. intros H Hm. destruct n as [|p|p]; injection H as <- <-.
  - lia.
  - split; [by apply iter_pos_shr_1_bounds | lia].
  - lia.
Qed.

Lemma shr_m_of_loc m l : shr_m (shr_record_of_loc m l) = m.
Proof. by destruct l as [|[]]. Qed.

Lemma shr_fexp_bounds m e l mrs' e' k :
  shr_fexp prec emax m e l = (mrs', e') ->
  0 <= k -> 0 <= m < 2 ^ k ->
  0 <= shr_m mrs' <= m /\ e' <= Z.max e (Z.max (k + e - 53) (-1074)).
Proof.
  unfold shr_fexp. intros H Hk Hm.
  apply shr_bounds in H; rewrite shr_m_of_loc in *; [|lia].
  pose proof (Zdigits2_le m k Hk Hm) as Hd.
  unfold fexp, emin, prec, emax in H. lia.
Qed.

Lemma round_nearest_even_bounds m l :
  m <= round_nearest_even m l <= m + 1.
Proof. destruct l as [|[]]; simpl; try lia. destruct (Z.even m); lia. Qed.


Lemma binary_round_aux_nonneg_finite mx ex k :
  0 <= k <= 200 -> 0 <= mx < 2 ^ k -> ex <= 100 ->
  nonneg_finite (binary_round_aux prec emax false mx ex loc_Exact).
Proof.
  intros Hk Hm He. unfold binary_round_aux.
  destruct (shr_fexp prec emax mx ex loc_Exact) as [mrs' e'] eqn:H1.
  apply (shr_fexp_bounds _ _ _ _ _ k) in H1 as [Hm' He']; [|lia..].
  pose proof (round_nearest_even_bounds (shr_m mrs') (loc_of_shr_record mrs')) as Hr.
  destruct (shr_fexp prec emax _ e' loc_Exact) as [mrs'' e''] eqn:H2.
  assert (Hpow : 2 ^ (k + 1) = 2 * 2 ^ k) by (rewrite Z.pow_add_r; lia).
  apply (shr_fexp_bounds _ _ _ _ _ (k + 1)) in H2 as [Hm'' He'']; [|lia..].
  destruct (shr_m mrs'') as [|p|p] eqn:Hs.
  - by left.
  - right. unfold prec, emax. destruct (e'' <=? 1024 - 53) eqn:Hle; [eauto|].
    apply Z.leb_gt in Hle. lia.
  - lia.
Qed.

Lemma iter_xO_digits m d :
  Z.pos (digits2_pos (Pos.iter xO m d)) = Z.pos (digits2_pos m) + Z.pos d.
Proof.
  induction d as [|d IH] using Pos.peano_ind.
  - simpl. lia.
  - rewrite Pos.iter_succ. simpl. lia.
Qed.

Lemma pos_lt_pow_digits p : Z.pos p < 2 ^ Z.pos (digits2_pos p).
Proof.
  rewrite digits2_pos_size. pose proof (Pos.size_gt p) as H.
  apply Pos2Z.pos_lt_pos in H. by rewrite Pos2Z.inj_pow in H.
Qed.

(** The conversion of a [uint64] to [float64] is [+0] or positive and
    finite: no integer below 2^64 overflows the format. *)
Lemma of_Z_uint64_nonneg_finite z : is_uint64 z -> nonneg_finite (of_Z z).
Proof.
  unfold is_uint64, max_uint64, of_Z, binary_normalize. intros Hz.
  destruct z as [|p|p]; [by left| |lia].
  unfold binary_round.
  destruct (shl_align p 0 _) as [mz ez] eqn:Hal.
  assert (Hd : Z.pos (digits2_pos p) <= 64).
  { apply (Zdigits2_le (Z.pos p) 64); lia. }
  unfold shl_align, fexp, emin, prec, emax in Hal.
  destruct (Z.max (Z.pos (digits2_pos p) + 0 - 53) (3 - 1024 - 53) - 0) as [|d|d] eqn:Hsh;
    injection Hal as <- <-.
  - apply (binary_round_aux_nonneg_finite _ _ 64); lia.
  - apply (binary_round_aux_nonneg_finite _ _ 64); lia.
  - pose proof (pos_lt_pow_digits (Pos.iter xO p d)) as Hlt.
    rewrite iter_xO_digits in Hlt.
    assert (Z.pos (digits2_pos p) + Z.pos d = 53) by lia.
    apply (binary_round_aux_nonneg_finite _ _ 53); [lia| |lia].
    split; [lia|]. congruence.
Qed.

(** *** Operations on [+0] *)

Lemma fmul_zero_of_uint64 z : is_uint64 z -> fmul zero (of_Z z) = zero.
Proof.
  intros Hz. destruct (of_Z_uint64_nonneg_finite z Hz) as [-> | (m & e & ->)]; done.
Qed.


(** [Seconds] of the zero duration. *)
Lemma Seconds_0 : Time.Seconds 0 = zero.
Proof. by vm_compute. Qed.

(** Between two readings of the clock nothing has elapsed exactly when
    they are the same reading. *)
Lemma Sub_zero_iff t u :
  is_int64 t -> is_int64 u -> (Time.Sub t u = 0 <-> t = u).
Proof.
  unfold is_int64, min_int64, max_int64, Time.Sub, Time.subMono, wrap_int64,
    Time.maxDuration, Time.minDuration, max_int64, min_int64.
  intros Ht Hu.
  pose proof (Z.div_mod (t - u + 2 ^ 63) (2 ^ 64) ltac:(lia)) as Hdm.
  pose proof (Z.mod_pos_bound (t - u + 2 ^ 63) (2 ^ 64) ltac:(lia)) as Hb.
  split.
  - destruct (_ && _); [lia|]. destruct (_ && _); lia.
  - intros ->. replace (u - u + 2 ^ 63) with (2 ^ 63) by lia.
    rewrite Z.mod_small by lia. replace (2 ^ 63 - 2 ^ 63) with 0 by lia.
    by rewrite Z.ltb_irrefl.
Qed.



End Float64Facts.

(** ** The rate limiter *)

Module RateLimiterFacts.

Import Int IntFacts Float64 Float64Facts RateLimiter.
Local Open Scope Z_scope.



(** A new bucket meets the bounds of the data model. *)
Lemma newTokenBucket_unit_residue now capacity refillRate :
  unit_residue (fractionalTokens (newTokenBucket now capacity refillRate)).
Proof. by left. Qed.

Section Platform.

Variable oor : float64 -> Z.


(** With nothing elapsed the count, the capacity, the rate and the time
    of the last refill are those before, whatever the residue. *)
Lemma refillTokens_no_time_fields now tb :
  is_uint64 (refillRate tb) ->
  Time.Sub now (lastRefillTime tb) = 0 ->
  capacity (refillTokens oor now tb) = capacity tb /\
  tokens (refillTokens oor now tb) = tokens tb /\
  refillRate (refillTokens oor now tb) = refillRate tb /\
  lastRefillTime (refillTokens oor now tb) = lastRefillTime tb.
Proof.
  intros Hrate Hsub. unfold refillTokens. rewrite Hsub, Seconds_0.
  rewrite (fmul_zero_of_uint64 _ Hrate).
  change (flt zero zero) with false.
  by destruct (fle one _).
Qed.



(** The refill keeps the count a [uint64], and below the capacity. *)
Lemma refillTokens_tokens_typed now tb :
  is_uint64 (capacity tb) -> is_uint64 (tokens tb) ->
  is_uint64 (tokens (refillTokens oor now tb)).
Proof.
  intros Hc Ht. unfold refillTokens.
  destruct (fle one _); destruct (flt zero _); simpl; try done.
  all: match goal with
       | |- is_uint64 (Z.min _ (wrap_uint64 ?z)) =>
           pose proof (wrap_uint64_range z) as Hw
       end; unfold is_uint64 in *; lia.
Qed.

Lemma refillTokens_tokens_le_capacity now tb :
  tokens tb <= capacity tb ->
  tokens (refillTokens oor now tb) <= capacity (refillTokens oor now tb).
Proof.
  intros Hle. unfold refillTokens.
  destruct (fle one _); destruct (flt zero _); simpl; lia.
Qed.

Lemma refillTokens_fixed_fields now tb :
  capacity (refillTokens oor now tb) = capacity tb /\
  refillRate (refillTokens oor now tb) = refillRate tb.
Proof.
  unfold refillTokens. by destruct (fle one _); destruct (flt zero _).
Qed.

(** A token taken leaves the count one below the refilled count. *)
Lemma takeToken_true now tb tb' :
  is_uint64 (capacity tb) -> is_uint64 (tokens tb) ->
  takeToken oor now tb = (true, tb') ->
  1 <= tokens (refillTokens oor now tb) /\
  tokens tb' = tokens (refillTokens oor now tb) - 1.
Proof.
  intros Hc Ht. unfold takeToken.
  pose proof (refillTokens_tokens_typed now tb Hc Ht) as Hr.
  destruct (tokens (refillTokens oor now tb) =? 0) eqn:H0; [done|].
  apply Z.eqb_neq in H0. intros [= <-]. simpl.
  unfold is_uint64 in Hr. split; [lia|].
  apply wrap_uint64_id. unfold is_uint64. lia.
Qed.

(** A token refused leaves the bucket as the refill left it, empty. *)
Lemma takeToken_false now tb tb' :
  takeToken oor now tb = (false, tb') ->
  tb' = refillTokens oor now tb /\ tokens tb' = 0.
Proof.
  unfold takeToken.
  destruct (tokens (refillTokens oor now tb) =? 0) eqn:H0; [|done].
  apply Z.eqb_eq in H0. by intros [= <-].
Qed.

Lemma bucket_of_typed clk clientID rl :
  typed_limiter rl -> typed_bucket (bucket_of clk clientID rl).
Proof.
  intros (Hc & Hr & Hb). unfold bucket_of.
  destruct (clientBuckets rl !! clientID) as [tb|] eqn:Hl; [by eapply Hb|].
  unfold typed_bucket. simpl. auto.
Qed.

(** What [allowConnection] leaves in the map for the client. *)
Lemma allowConnection_bucket clk clientID rl ok rl' :
  allowConnection oor clk clientID rl = (ok, rl') ->
  clientBuckets rl' !! clientID
  = Some (snd (takeToken oor (now_refillTokens clk) (bucket_of clk clientID rl))) /\
  ok = fst (takeToken oor (now_refillTokens clk) (bucket_of clk clientID rl)).
Proof.
  unfold allowConnection.
  destruct (takeToken oor _ _) as [ok0 tb'] eqn:Ht. intros [= <- <-]. simpl.
  by rewrite lookup_insert_eq.
Qed.

(** The other clients keep their buckets. *)
Lemma allowConnection_other clk clientID other rl ok rl' :
  allowConnection oor clk clientID rl = (ok, rl') ->
  other <> clientID ->
  clientBuckets rl' !! other = clientBuckets rl !! other.
Proof.
  unfold allowConnection.
  destruct (takeToken oor _ _) as [ok0 tb']. intros [= <- <-] Hne. simpl.
  by rewrite lookup_insert_ne.
Qed.

End Platform.



End RateLimiterFacts.

(** ** Routing a connection *)

Module RouteFacts.

Import Int IntFacts RateLimiter RateLimiterFacts Balancer BalancerFacts.
Local Open Scope Z_scope.

Lemma count_add_app p d evs evs' :
  count_add p d (evs ++ evs') = (count_add p d evs + count_add p d evs')%nat.
Proof.
  induction evs as [|ev evs IH]; simpl; [done|].
  destruct ev; try done. destruct (decide (p0 = p ∧ d0 = d)); simpl; lia.
Qed.

Lemma dial_and_transfer_no_add e address r evs p d :
  dial_and_transfer e address = (r, evs) → count_add p d evs = O.
Proof.
  unfold dial_and_transfer.
  destruct (env_dial e address); by intros [= <- <-].
Qed.

Lemma add_connections_undo b :
  is_int64 (connections b) → add_connections (-1) (add_connections 1 b) = b.
Proof.
  intros Hb. unfold add_connections. simpl.
  rewrite (wrap_int64_succ_pred _ Hb). by destruct b.
Qed.

(** C4: when the rate limiter refuses the client, [RouteConnection]
    returns [ErrRateLimitReached] having done nothing to the registry:
    the trace of counter reads, counter updates, dials and transfers is
    empty, and the slice of backends and the store of counters are those
    it was called on. *)
Theorem RouteConnection_rate_limited e clientID allowed lb (mem : store) rl' :
  allowConnection (env_oor e) (env_clock e) clientID (rateLimiter lb) = (false, rl') →
  RouteConnection e clientID allowed lb mem
  = (RouteReturn (Some ErrRateLimitReached),
     {| backends := backends lb; rateLimiter := rl' |}, mem, []).
Proof. intros H. unfold RouteConnection. by rewrite H. Qed.

(** C2: when the rate limiter admits the client and [GetBackend] selects
    [B], then however the dial ends (success, error or panic) and
    whatever the two copies of the relay return, the trace of [RouteConnection] holds exactly one increment and
    exactly one decrement of the counter of [B], and the store of
    counters it leaves is the one it was called on: the net change of the
    counter of [B] is zero. *)
Theorem RouteConnection_releases_once e clientID allowed lb
    (mem mem1 : store) rl' B evs1 :
  typed_store mem →
  allowConnection (env_oor e) (env_clock e) clientID (rateLimiter lb) = (true, rl') →
  GetBackend (backends lb) allowed mem = (GetOk B, mem1, evs1) →
  ∃ r evs,
    RouteConnection e clientID allowed lb mem
    = (r, {| backends := backends lb; rateLimiter := rl' |}, mem, evs) ∧
    count_add B 1 evs = 1%nat ∧
    count_add B (-1) evs = 1%nat.
Proof.
  intros Htyped Hallow Hget. unfold RouteConnection. rewrite Hallow. simpl.
  rewrite Hget.
  pose proof (GetBackend_ok_inv _ _ _ _ _ _ Hget) as (l & evs0 & b & Hscan & Hb & -> & ->).
  rewrite lookup_insert_eq.
  destruct (dial_and_transfer e (Address (add_connections 1 b))) as [r evs'] eqn:Hdt.
  unfold decrementConnections. rewrite lookup_insert_eq.
  rewrite insert_insert_eq, (add_connections_undo b (Htyped _ _ Hb)).
  rewrite (insert_id mem B b Hb).
  eexists _, _. split; [done|].
  rewrite !count_add_app.
  rewrite (dial_and_transfer_no_add _ _ _ _ B 1 Hdt).
  rewrite (dial_and_transfer_no_add _ _ _ _ B (-1) Hdt).
  rewrite (scan_reads_only _ _ _ _ _ _ _ _ Hscan B 1).
  rewrite (scan_reads_only _ _ _ _ _ _ _ _ Hscan B (-1)).
  simpl.
  rewrite (decide_True (P := B = B ∧ 1 = 1)) by done.
  rewrite (decide_True (P := B = B ∧ -1 = -1)) by done.
  rewrite (decide_False (P := B = B ∧ -1 = 1)) by (intros [_ ?]; done).
  rewrite (decide_False (P := B = B ∧ 1 = -1)) by (intros [_ ?]; done).
  split; reflexivity.
Qed.

(** C10: when the rate limiter admits the client, whatever
    [RouteConnection] then returns (an error of the selection, an error
    of the dial or of the relay, or nil) the rate limiter it leaves is the
    one [allowConnection] left: the bucket of the client holds one token
    less than the refill gave it, and nothing puts the token back. *)
Theorem RouteConnection_keeps_token e clientID allowed lb (mem mem' : store)
    rl' r lb' evs :
  typed_limiter (rateLimiter lb) →
  allowConnection (env_oor e) (env_clock e) clientID (rateLimiter lb) = (true, rl') →
  RouteConnection e clientID allowed lb mem = (r, lb', mem', evs) →
  rateLimiter lb' = rl' ∧
  ∃ tb',
    clientBuckets (rateLimiter lb') !! clientID = Some tb' ∧
    let refilled :=
      refillTokens (env_oor e) (now_refillTokens (env_clock e))
        (bucket_of (env_clock e) clientID (rateLimiter lb)) in
    1 <= tokens refilled ∧ tokens tb' = tokens refilled - 1.
Proof.
  intros Htyped Hallow Hroute.
  assert (Hrl : rateLimiter lb' = rl').
  { unfold RouteConnection in Hroute. rewrite Hallow in Hroute. simpl in Hroute.
    destruct (GetBackend (backends lb) allowed mem) as [[[B|err|] mem1] evs1].
    - destruct (match mem1 !! B with Some b => _ | None => _ end) as [r0 evs'].
      destruct (decrementConnections B mem1); by injection Hroute as _ <- _ _.
    - by injection Hroute as _ <- _ _.
    - by injection Hroute as _ <- _ _. }
  split; [done|]. rewrite Hrl.
  destruct (allowConnection_bucket _ _ _ _ _ _ Hallow) as [Hl Hok].
  destruct (takeToken (env_oor e) (now_refillTokens (env_clock e))
              (bucket_of (env_clock e) clientID (rateLimiter lb)))
    as [ok tb'] eqn:Htake.
  simpl in Hl, Hok. subst ok. exists tb'. split; [done|].
  destruct (bucket_of_typed (env_clock e) clientID _ Htyped) as (Hc & Ht & _).
  by apply (takeToken_true _ _ _ _ Hc Ht).
Qed.

End RouteFacts.

(** *** Runs of the routing theorems on the values of the tests *)

Module RouteRuns.

Import Int IntFacts RateLimiter RateLimiterFacts Balancer BalancerFacts RouteFacts Fixtures.
Local Open Scope Z_scope.

Lemma mem12_typed : typed_store mem12.
Proof.
  unfold typed_store, mem12.
  apply map_Forall_insert_2; [by vm_compute|].
  apply map_Forall_singleton. by vm_compute.
Qed.

Lemma newRateLimiter_typed capacity refillRate :
  is_uint64 capacity → is_uint64 refillRate →
  typed_limiter (newRateLimiter capacity refillRate).
Proof.
  intros Hc Hr. split; [done|]. split; [done|].
  intros clientID tb H. simpl in H. by rewrite lookup_empty in H.
Qed.

(** A run of C4: a limiter of capacity 0 refuses the first connection. *)
Lemma RouteConnection_rate_limited_witness :
  RouteConnection mockEnv "client1" allowed12 (lb12 0) mem12
  = (RouteReturn (Some ErrRateLimitReached),
     {| backends := backends (lb12 0);
        rateLimiter :=
          snd (allowConnection (env_oor mockEnv) (env_clock mockEnv) "client1"
                 (rateLimiter (lb12 0))) |},
     mem12, []).
Proof.
  apply (RouteConnection_rate_limited mockEnv "client1" allowed12 (lb12 0) mem12).
  by vm_compute.
Defined.

(** A run of C2: the dial fails after [backend1] is selected. *)
Lemma RouteConnection_releases_once_witness :
  ∃ r evs,
    RouteConnection refusedEnv "client1" allowed12 (lb12 5) mem12
    = (r,
       {| backends := backends (lb12 5);
          rateLimiter :=
            snd (allowConnection (env_oor refusedEnv) (env_clock refusedEnv) "client1"
                   (rateLimiter (lb12 5))) |},
       mem12, evs) ∧
    count_add 1%positive 1 evs = 1%nat ∧
    count_add 1%positive (-1) evs = 1%nat.
Proof.
  apply (RouteConnection_releases_once refusedEnv "client1" allowed12 (lb12 5) mem12
           (<[1%positive := add_connections 1 backend1]> mem12) _ 1%positive
           [EvLoad 1%positive; EvLoad 2%positive; EvAdd 1%positive 1]).
  - apply mem12_typed.
  - by vm_compute.
  - by vm_compute.
Defined.

(** A run of C10: no backend is allowed, the selection fails, and the
    bucket of the client is left with four of its five tokens. *)
Lemma RouteConnection_keeps_token_witness :
  ∃ tb',
    clientBuckets
      (rateLimiter (RouteConnection mockEnv "client1" ∅ (lb12 5) mem12).1.1.2)
      !! "client1" = Some tb' ∧ tokens tb' = 4.
Proof.
  destruct (RouteConnection_keeps_token mockEnv "client1" ∅ (lb12 5) mem12 mem12
              (snd (allowConnection (env_oor mockEnv) (env_clock mockEnv) "client1"
                      (rateLimiter (lb12 5))))
              (RouteReturn (Some ErrNoAvailableBackend))
              (RouteConnection mockEnv "client1" ∅ (lb12 5) mem12).1.1.2 [])
    as (_ & tb' & Hl & _ & Ht).
  - apply newRateLimiter_typed; by vm_compute.
  - by vm_compute.
  - by vm_compute.
  - exists tb'. split; [done|]. rewrite Ht. by vm_compute.
Defined.

End RouteRuns.

(** ** The server *)

Module ServerFacts.

Import Balancer Server Fixtures.
Local Open Scope Z_scope.

(** *** Authentication *)

(** [ValidateCommonName] accepts exactly the non-empty names that are keys
    of the map, whatever they are mapped to. *)
Lemma ValidateCommonName_accepts_keys clientCert (allowedClients : gmap string bool) :
  ValidateCommonName clientCert allowedClients = None ↔
  CommonName clientCert ≠ EmptyString ∧
  is_Some (allowedClients !! CommonName clientCert).
Proof.
  unfold ValidateCommonName, map_index.
  destruct (decide (CommonName clientCert = EmptyString)) as [He|He].
  - split; [done|]. by intros [? _].
  - destruct (allowedClients !! CommonName clientCert) as [v|]; simpl.
    + split; [eauto|done].
    + split; [done|]. intros [_ [? ?]]. done.
Qed.

(** C3, on the failing input: a certificate whose CommonName is a key of
    the map with the value [false] passes [ValidateCommonName] (the nil
    error), and the connection that presents it passes
    [AuthenticateClient]. *)
Theorem ValidateCommonName_accepts_false_entry :
  let clientCert := {| CommonName := "client1.example.com"; SerialNumber := 1234567890 |} in
  let allowedClients : gmap string bool := {["client1.example.com" := false]} in
  ValidateCommonName clientCert allowedClients = None ∧
  AuthenticateClient
    {| conn_is_tls := true; conn_handshake := None;
       conn_peer_certificates := [clientCert] |} allowedClients
  = inl clientCert.
Proof. by vm_compute. Qed.

(** *** The client identity *)

Lemma bytes_of_string_app s t :
  bytes_of_string (s ++ t) = bytes_of_string s ++ bytes_of_string t.
Proof.
  unfold bytes_of_string. induction s as [|c s IH]; simpl; [done|].
  by f_equal.
Qed.

Lemma byte_of_ascii_to_N c : Byte.to_N (byte_of_ascii c) = N_of_ascii c.
Proof. by destruct c as [[] [] [] [] [] [] [] []]. Qed.

Lemma utf8_bytes_of_string s : utf8 s = bytes_of_string s.
Proof.
  unfold utf8, bytes_of_string. induction s as [|c s IH]; simpl; [done|].
  rewrite byte_of_ascii_to_N. by f_equal.
Qed.


Lemma hextable_at_digit d :
  0 <= d < 16 → Hex.hextable_at d = lowercase_hex_digit d.
Proof.
  intros Hd.
  assert (H : d = 0 ∨ d = 1 ∨ d = 2 ∨ d = 3 ∨ d = 4 ∨ d = 5 ∨ d = 6 ∨ d = 7 ∨
              d = 8 ∨ d = 9 ∨ d = 10 ∨ d = 11 ∨ d = 12 ∨ d = 13 ∨ d = 14 ∨ d = 15)
    by lia.
  repeat (destruct H as [-> | H]; [reflexivity|]). by subst d.
Qed.

Lemma EncodeToString_hex_lowercase bytes :
  Forall is_byte bytes → Hex.EncodeToString bytes = hex_lowercase bytes.
Proof.
  induction 1 as [|b bytes Hb _ IH]; simpl; [done|].
  unfold is_byte in Hb.
  rewrite Z.shiftr_div_pow2 by lia.
  change 15 with (Z.ones 4). rewrite Z.land_ones by lia.
  change (2 ^ 4) with 16.
  rewrite !hextable_at_digit, IH; [done| |].
  - apply Z.mod_pos_bound. lia.
  - split; [apply Z.div_pos; lia | apply Z.div_lt_upper_bound; lia].
Qed.

Lemma big_endian_bytes n x : Forall is_byte (Sha256.big_endian n x).
Proof.
  induction n as [|n IH]; simpl; constructor; [|done].
  apply Z.mod_pos_bound. lia.
Qed.

Lemma big_endian_length n x : length (Sha256.big_endian n x) = n.
Proof. induction n; simpl; congruence. Qed.

Lemma Sum256_bytes data : Forall is_byte (Sha256.Sum256 data).
Proof.
  unfold Sha256.Sum256. generalize (Sha256.blocks (length (Sha256.pad data)) Sha256.H0
                                      (Sha256.pad data)).
  intros ws. induction ws as [|w ws IH]; [constructor|].
  change (Forall is_byte (Sha256.big_endian 4 w ++ flat_map (Sha256.big_endian 4) ws)).
  apply Forall_app. split; [apply big_endian_bytes|done].
Qed.

Lemma blocks_length n h bytes :
  length h = 8%nat → length (Sha256.blocks n h bytes) = 8%nat.
Proof.
  revert h bytes. induction n as [|n IH]; intros h bytes Hh; simpl; [done|].
  destruct bytes; [done|]. by apply IH.
Qed.

(** The digest has 32 bytes. *)
Lemma Sum256_length data : length (Sha256.Sum256 data) = 32%nat.
Proof.
  unfold Sha256.Sum256.
  pose proof (blocks_length (length (Sha256.pad data)) Sha256.H0 (Sha256.pad data)
                eq_refl) as H.
  destruct (Sha256.blocks _ _ _) as [|a [|b [|c [|d [|e [|f [|g [|h [|]]]]]]]]];
    try done.
Qed.

Lemma EncodeToString_length bytes :
  String.length (Hex.EncodeToString bytes) = (2 * length bytes)%nat.
Proof. induction bytes as [|b bytes IH]; simpl; [done|]. rewrite IH. lia. Qed.

(** The identity of a client has 64 characters. *)
Lemma GenerateClientID_length cn serialNumber :
  String.length (GenerateClientID cn serialNumber) = 64%nat.
Proof.
  unfold GenerateClientID. by rewrite EncodeToString_length, Sum256_length.
Qed.

(** C7: for every CommonName and every serial number string,
    [GenerateClientID] is the lowercase hexadecimal writing of the
    SHA-256 digest of the bytes of the CommonName, a colon and the
    serial; for "client1.example.com" and "1234567890" it is the digest
    of "client1.example.com:1234567890". *)
Theorem GenerateClientID_is_hex_sha256 :
  (∀ cn serialNumber,
     GenerateClientID cn serialNumber = clientID_spec cn serialNumber) ∧
  GenerateClientID "client1.example.com" "1234567890"
  = hex_lowercase (Sha256.Sum256 (utf8 "client1.example.com:1234567890")) ∧
  GenerateClientID "client1.example.com" "1234567890"
  = "92bca0473241344fca4b1d7df0e8853ec6e75d78519b5713acb71bf4b1dee68b"%string.
Proof.
  split; [|split; by vm_compute].
  intros cn serialNumber. unfold GenerateClientID, clientID_spec, Sprintf_s_colon_s.
  rewrite !utf8_bytes_of_string, !bytes_of_string_app.
  apply EncodeToString_hex_lowercase, Sum256_bytes.
Qed.

(** The constants and the digests of the standard's examples. *)
Example Sha256_constants :
  length Sha256.K = 64%nat ∧
  nth 0 Sha256.K 0 = 0x428a2f98 ∧ nth 63 Sha256.K 0 = 0xc67178f2 ∧
  nth 0 Sha256.H0 0 = 0x6a09e667 ∧ nth 7 Sha256.H0 0 = 0x5be0cd19.
Proof. by vm_compute. Qed.

Example Sum256_abc :
  Hex.EncodeToString (Sha256.Sum256 (bytes_of_string "abc"))
  = "ba7816bf8f01cfea414140de5dae2223b00361a396177a9cb410ff61f20015ad"%string ∧
  Hex.EncodeToString (Sha256.Sum256 (bytes_of_string ""))
  = "e3b0c44298fc1c149afbf4c8996fb92427ae41e4649b934ca495991b7852b855"%string ∧
  Hex.EncodeToString
    (Sha256.Sum256
       (bytes_of_string "abcdbcdecdefdefgefghfghighijhijkijkljklmklmnlmnomnopnopq"))
  = "248d6a61d20638b8e5c026930c3e6039a33ce45964ff2167f6ecedd419db06c1"%string.
Proof. by vm_compute. Qed.

(** An ACL keyed by the identity authorizes; another key does not. *)
Lemma AuthorizeClient_exact_key (allowedBackends : gset string) other :
  other ≠ GenerateClientID "client1.example.com" "1234567890" →
  AuthorizeClient (GenerateClientID "client1.example.com" "1234567890")
    {[GenerateClientID "client1.example.com" "1234567890" := allowedBackends]}
  = inl allowedBackends ∧
  AuthorizeClient (GenerateClientID "client1.example.com" "1234567890")
    {[other := allowedBackends]}
  = inr (ErrNotListed (GenerateClientID "client1.example.com" "1234567890")).
Proof.
  intros Hne. unfold AuthorizeClient.
  rewrite lookup_singleton_eq. by rewrite lookup_singleton_ne.
Qed.

(** *** The accept loop *)


(** C8, on the failing input: when [Stop] sets the flag and closes the
    listener while the loop is blocked in [Accept], the loop does not
    look at the flag before the retry path: it counts the closure as a
    failed accept, logs it and sleeps with the flag already set, and only
    the next test of the loop condition makes it leave; after five failed
    accepts in a row the same closure ends the process through
    [log.Fatalf]. *)
Theorem acceptConnections_shutdown_takes_retry_path :
  (∀ listener next rest,
     acceptConnections false 0 (mkTurn listener StopDuringAccept :: next :: rest)
     = ([EvRetryCount 1; EvLogAcceptError closed_listener; EvSleep true], LoopExited)) ∧
  (∀ listener rest,
     acceptConnections false 0
       (replicate 5 failing_turn ++ mkTurn listener StopDuringAccept :: rest)
     = (flat_map (λ n, [EvRetryCount n; EvLogAcceptError "too many open files";
                         EvSleep false]) [1; 2; 3; 4; 5]%nat
          ++ [EvFatal closed_listener],
        LoopFatal)).
Proof.
  split.
  - intros listener [l s] rest. simpl. by destruct s.
  - intros listener rest. reflexivity.
Qed.

(** What the loop does do: a stop seen by the loop condition ends it at
    once, with no retry. *)
Lemma acceptConnections_stop_before_check listener retryCount rest :
  acceptConnections false retryCount (mkTurn listener StopBeforeCheck :: rest)
  = ([], LoopExited).
Proof. reflexivity. Qed.

(** Once the flag is set the loop leaves at its next test. *)
Lemma acceptConnections_flag_set retryCount t rest :
  acceptConnections true retryCount (t :: rest) = ([], LoopExited).
Proof. simpl. by destruct (turn_stop t). Qed.

End ServerFacts.

(** ** main *)

Module MainFacts.

Import Main.
Local Open Scope Z_scope.

(** C9, on the failing input: started with no argument at all, [main]
    prints the error line and the usage and returns, so that the process
    ends with status 0; the same holds for an empty value of the flag. *)
Theorem main_without_config_exits_zero w :
  main [] w
  = ([Println "Error: Configuration file not provided"; Usage], 0) ∧
  main ["-config="%string] w
  = ([Println "Error: Configuration file not provided"; Usage], 0).
Proof. split; reflexivity. Qed.

(** The sibling paths: a configuration that does not load ends the
    process with status 1, an undefined flag with status 2. *)
Lemma main_error_paths w path err :
  path ≠ EmptyString →
  LoadAppConfig w path = inr err →
  main ["-config"%string; path] w = ([LogFatal err], 1) ∧
  snd (main ["-port"%string; "3003"%string] w) = 2.
Proof.
  intros Hp Hl. split; [|reflexivity].
  unfold main. simpl.
  change (flag_syntax_of "-config") with (FlagName "config"). simpl.
  destruct (decide (path = EmptyString)); [done|]. by rewrite Hl.
Qed.

End MainFacts.

(** ** The scenarios of the tests *)

Module Scenarios.

Import Int Float64 RateLimiter Balancer Fixtures.
Local Open Scope Z_scope.

(** Least connections with ties: the first pick is [backend1], the second
    [backend2]; with [backend2] at three connections the next pick is
    [backend1] again. *)
Example pick_first_then_second :
  let '(r1, mem1, _) := GetBackend [1; 2]%positive allowed12 mem12 in
  let '(r2, mem2, _) := GetBackend [1; 2]%positive allowed12 mem1 in
  let mem3 := <[2%positive := {| Address := "127.0.0.1:5002"; connections := 3 |}]> mem2 in
  let '(r3, _, _) := GetBackend [1; 2]%positive allowed12 mem3 in
  r1 = GetOk 1%positive ∧ ConnectionCount 1%positive mem1 = Some 1 ∧
  r2 = GetOk 2%positive ∧ ConnectionCount 2%positive mem2 = Some 1 ∧
  r3 = GetOk 1%positive.
Proof. by vm_compute. Qed.

(** An empty registry, and a registry the filter empties. *)
Example registry_empty_or_filtered :
  (GetBackend [] {["x:1"]} mem12).1.1 = GetErr ErrNoRegisteredBackends ∧
  (GetBackend [1%positive] {["x:1"]} mem12).1.1 = GetErr ErrNoAvailableBackend.
Proof. by vm_compute. Qed.

(** A nil pointer in the registry makes the selection panic. *)
Example registry_with_nil :
  (GetBackend [1; 7]%positive allowed12 mem12).1.1 = GetPanic.
Proof. by vm_compute. Qed.

(** A new bucket of ten tokens gives one and keeps nine. *)
Example take_token_successfully :
  let '(ok, tb) := takeToken (fun _ => 0) 0 (newTokenBucket 0 10 2) in
  ok = true ∧ tokens tb = 9.
Proof. by vm_compute. Qed.

(** A bucket of capacity zero gives none. *)
Example fail_to_take_token :
  (takeToken (fun _ => 0) 0 (newTokenBucket 0 0 1)).1 = false.
Proof. by vm_compute. Qed.

(** Two seconds at two tokens per second refill four tokens, and never
    more than the capacity. *)
Example refill_tokens_correctly :
  let tb := newTokenBucket 0 10 2 in
  let empty := {| capacity := 10; tokens := 0; refillRate := 2;
                  fractionalTokens := zero; lastRefillTime := 0 |} in
  tokens (refillTokens (fun _ => 0) 2000000000 empty) = 4 ∧
  tokens (refillTokens (fun _ => 0) 2000000000 tb) = 10.
Proof. by vm_compute. Qed.

(** Fractions of a token add up over calls: three quarters, then nine
    quarters more, make three tokens and no residue. *)
Example fractional_tokens_carry :
  let empty := {| capacity := 10; tokens := 0; refillRate := 3;
                  fractionalTokens := zero; lastRefillTime := 0 |} in
  let tb1 := refillTokens (fun _ => 0) 250000000 empty in
  let tb2 := refillTokens (fun _ => 0) 1000000000 tb1 in
  tokens tb1 = 0 ∧ tokens tb2 = 3 ∧ fractionalTokens tb2 = zero.
Proof. by vm_compute. Qed.

(** The bound on the residue matters: from a residue of one and a half,
    which lies outside the bounds of the data model, a refill with
    nothing elapsed takes the carry off the residue and, the amount being
    zero, drops the token. *)
Example refill_outside_the_bounds :
  let tb := {| capacity := 10; tokens := 3; refillRate := 2;
               fractionalTokens := S754_finite false 6755399441055744 (-52);
               lastRefillTime := 0 |} in
  let tb' := refillTokens (fun _ => 0) 0 tb in
  tokens tb' = 3 ∧ fractionalTokens tb' = S754_finite false 4503599627370496 (-53).
Proof. by vm_compute. Qed.

(** The relay joins the errors of its two copies in the order they come. *)
Example transferData_joins :
  transferData (mkRelay None None true) = None ∧
  transferData (mkRelay (Some "EOF") None true)
  = Some (ErrJoin ["copying data from backend server: EOF"%string]) ∧
  transferData (mkRelay (Some "reset") (Some "closed") false)
  = Some (ErrJoin ["copying data to backend server: closed"%string;
                   "copying data from backend server: reset"%string]).
Proof. by vm_compute. Qed.

(** A routed connection leaves the counter of its backend at zero. *)
Example route_then_count_zero :
  let '(r, _, mem, evs) := RouteConnection mockEnv "client1" allowed12 (lb12 5) mem12 in
  r = RouteReturn None ∧ ConnectionCount 1%positive mem = Some 0 ∧
  evs = [EvLoad 1%positive; EvLoad 2%positive; EvAdd 1%positive 1;
         EvDial "127.0.0.1:5001"; EvTransfer; EvClose; EvAdd 1%positive (-1)].
Proof. by vm_compute. Qed.

End Scenarios.

(** ** More on the rate limiter *)

Module RateLimiterMore.

Import Int IntFacts Float64 Float64Facts RateLimiter RateLimiterFacts.
Local Open Scope Z_scope.

Section Platform.

Variable oor : float64 -> Z.



Lemma refillTokens_tokens now tb :
  tokens (refillTokens oor now tb)
  = if flt zero (refillAmount now tb)
    then Z.min (capacity tb) (wrap_uint64 (tokens tb + wholeTokens oor now tb))
    else tokens tb.
Proof.
  unfold refillTokens, wholeTokens, refillAmount.
  by destruct (fle one _); destruct (flt zero _).
Qed.


(** What [takeToken] keeps of a bucket. *)
Lemma takeToken_keeps now tb ok tb' :
  typed_bucket tb -> tokens tb <= capacity tb ->
  takeToken oor now tb = (ok, tb') ->
  typed_bucket tb' /\ tokens tb' <= capacity tb' /\
  capacity tb' = capacity tb /\ refillRate tb' = refillRate tb.
Proof.
  intros (Hc & Ht & Hr) Hle. unfold takeToken.
  pose proof (refillTokens_tokens_typed oor now tb Hc Ht) as Htyped.
  pose proof (refillTokens_tokens_le_capacity oor now tb Hle) as Hcap.
  destruct (refillTokens_fixed_fields oor now tb) as [Hfc Hfr].
  destruct (tokens (refillTokens oor now tb) =? 0) eqn:H0.
  - intros [= <- <-]. unfold typed_bucket. rewrite Hfc, Hfr. rewrite Hfc in Hcap.
    auto.
  - apply Z.eqb_neq in H0. intros [= <- <-]. unfold typed_bucket. simpl.
    rewrite Hfc, Hfr. rewrite Hfc in Hcap. unfold is_uint64 in *.
    rewrite wrap_uint64_id by (unfold is_uint64; lia).
    repeat split; lia.
Qed.

Lemma bucket_of_within clk clientID rl :
  within_capacity rl ->
  tokens (bucket_of clk clientID rl) <= capacity (bucket_of clk clientID rl).
Proof.
  intros Hw. unfold bucket_of.
  destruct (clientBuckets rl !! clientID) as [tb|] eqn:Hl; [by eapply Hw|].
  simpl. lia.
Qed.

(** X2: [allowConnection] keeps the bounds of the limiter: afterwards
    every bucket still holds uint64 values and at most its capacity of
    tokens, and the bucket of the client has the capacity and the refill
    rate it had, or those of the limiter when it is new. *)
Theorem allowConnection_keeps_bounds clk clientID rl ok rl' :
  typed_limiter rl -> within_capacity rl ->
  allowConnection oor clk clientID rl = (ok, rl') ->
  typed_limiter rl' /\ within_capacity rl' /\
  exists tb',
    clientBuckets rl' !! clientID = Some tb' /\
    capacity tb' = capacity (bucket_of clk clientID rl) /\
    refillRate tb' = refillRate (bucket_of clk clientID rl).
Proof.
  intros Htyped Hwithin Hallow.
  pose proof (bucket_of_typed clk clientID rl Htyped) as Hb.
  pose proof (bucket_of_within clk clientID rl Hwithin) as Hle.
  unfold allowConnection in Hallow.
  destruct (takeToken oor (now_refillTokens clk) (bucket_of clk clientID rl))
    as [ok0 tb'] eqn:Htake.
  injection Hallow as <- <-.
  destruct (takeToken_keeps _ _ _ _ Hb Hle Htake) as (Htb' & Hle' & Hc' & Hr').
  destruct Htyped as (Hcap & Hrate & Hall).
  split; [|split].
  - split; [done|]. split; [done|]. simpl. intros other tb Hl.
    destruct (decide (other = clientID)) as [->|Hne].
    + rewrite lookup_insert_eq in Hl. by injection Hl as <-.
    + rewrite lookup_insert_ne in Hl by done. by eapply Hall.
  - intros other tb Hl. simpl in Hl.
    destruct (decide (other = clientID)) as [->|Hne].
    + rewrite lookup_insert_eq in Hl. by injection Hl as <-.
    + rewrite lookup_insert_ne in Hl by done. by eapply Hwithin.
  - exists tb'. simpl. by rewrite lookup_insert_eq.
Qed.

(** X3: [allowConnection] works on the bucket of its client alone: the
    defaults of the limiter and the buckets of the other clients are as
    before, the client has a bucket afterwards, and the clients known are
    those known before and this one (no bucket is ever dropped). *)
Theorem allowConnection_touches_one_bucket clk clientID rl ok rl' :
  allowConnection oor clk clientID rl = (ok, rl') ->
  bucketCapacity rl' = bucketCapacity rl /\
  bucketRefillRate rl' = bucketRefillRate rl /\
  is_Some (clientBuckets rl' !! clientID) /\
  (forall other, other <> clientID ->
     clientBuckets rl' !! other = clientBuckets rl !! other) /\
  dom (clientBuckets rl') = {[clientID]} ∪ dom (clientBuckets rl).
Proof.
  unfold allowConnection.
  destruct (takeToken oor _ _) as [ok0 tb']. intros [= <- <-]. simpl.
  repeat split; try done.
  - rewrite lookup_insert_eq. eauto.
  - intros other Hne. by rewrite lookup_insert_ne.
  - by rewrite dom_insert_L.
Qed.

(** X4: a client whose bucket has capacity zero is refused whatever the
    clock reads. *)
Theorem allowConnection_zero_capacity clk clientID rl :
  typed_limiter rl -> within_capacity rl ->
  capacity (bucket_of clk clientID rl) = 0 ->
  fst (allowConnection oor clk clientID rl) = false.
Proof.
  intros Htyped Hwithin Hzero.
  destruct (bucket_of_typed clk clientID rl Htyped) as (Hc & Ht & _).
  pose proof (bucket_of_within clk clientID rl Hwithin) as Hle.
  unfold allowConnection, takeToken.
  assert (H0 : tokens (refillTokens oor (now_refillTokens clk)
                         (bucket_of clk clientID rl)) = 0).
  { rewrite refillTokens_tokens, Hzero.
    unfold is_uint64 in Ht.
    match goal with |- context [wrap_uint64 ?z] =>
      pose proof (wrap_uint64_range z) as Hw end.
    unfold is_uint64 in Hw. destruct (flt zero _); lia. }
  by rewrite H0.
Qed.

(** With the clock standing still a bucket gives a token if it has one;
    its capacity, its rate and the time of its last refill stay, whatever
    its residue. *)
Lemma allowConnection_frozen clk clientID rl :
  let tb := bucket_of clk clientID rl in
  typed_bucket tb ->
  Time.Sub (now_refillTokens clk) (lastRefillTime tb) = 0 ->
  exists rl' tb',
    allowConnection oor clk clientID rl = (negb (tokens tb =? 0), rl') /\
    clientBuckets rl' !! clientID = Some tb' /\
    tokens tb' = (if tokens tb =? 0 then 0 else tokens tb - 1) /\
    capacity tb' = capacity tb /\ refillRate tb' = refillRate tb /\
    lastRefillTime tb' = lastRefillTime tb.
Proof.
  intros tb (Hc & Ht & Hr) Hsub.
  unfold allowConnection, takeToken. fold tb.
  destruct (refillTokens_no_time_fields oor _ tb Hr Hsub) as (Hc1 & Hn1 & Hr1 & Hl1).
  rewrite Hn1.
  destruct (tokens tb =? 0) eqn:H0; simpl.
  - apply Z.eqb_eq in H0. eexists _, _. split; [done|]. simpl.
    rewrite lookup_insert_eq. split; [done|]. rewrite ?Hn1, ?Hc1, ?Hr1, ?Hl1. done.
  - apply Z.eqb_neq in H0. eexists _, _. split; [done|]. simpl.
    rewrite lookup_insert_eq. split; [done|]. simpl.
    rewrite ?Hn1, ?Hc1, ?Hr1, ?Hl1.
    unfold is_uint64 in Ht. rewrite wrap_uint64_id by (unfold is_uint64; lia).
    done.
Qed.

Lemma granted_then_refused tokens0 k :
  0 <= tokens0 ->
  negb (tokens0 =? 0)
    :: (replicate (Nat.min k (Z.to_nat (if tokens0 =? 0 then 0 else tokens0 - 1))) true
        ++ replicate (k - Z.to_nat (if tokens0 =? 0 then 0 else tokens0 - 1)) false)
  = replicate (Nat.min (S k) (Z.to_nat tokens0)) true
    ++ replicate (S k - Z.to_nat tokens0) false.
Proof.
  intros H0. destruct (tokens0 =? 0) eqn:Hz.
  - apply Z.eqb_eq in Hz. subst tokens0. simpl.
    by rewrite Nat.min_0_r, Nat.sub_0_r.
  - apply Z.eqb_neq in Hz.
    destruct (Z.to_nat tokens0) as [|n] eqn:Hn; [lia|].
    replace (Z.to_nat (tokens0 - 1)) with n by lia. done.
Qed.

Lemma allow_each_frozen_known clks clientID :
  forall rl tb,
    clientBuckets rl !! clientID = Some tb ->
    typed_bucket tb ->
    Forall (fun clk => Time.Sub (now_refillTokens clk) (lastRefillTime tb) = 0) clks ->
    fst (allow_each oor clks clientID rl)
    = replicate (Nat.min (length clks) (Z.to_nat (tokens tb))) true
      ++ replicate (length clks - Z.to_nat (tokens tb)) false.
Proof.
  induction clks as [|clk clks IH]; intros rl tb Hl Htyped Hall; [done|].
  apply Forall_cons in Hall as [Hsub Hall].
  assert (Hb : bucket_of clk clientID rl = tb) by (unfold bucket_of; by rewrite Hl).
  pose proof (allowConnection_frozen clk clientID rl) as Hstep.
  rewrite Hb in Hstep.
  destruct (Hstep Htyped Hsub)
    as (rl' & tb' & Hallow & Hl' & Htok & Hcap & Hrate & Hlast).
  simpl. rewrite Hallow.
  destruct Htyped as (Hc & Ht & Hr).
  assert (Htyped' : typed_bucket tb').
  { unfold typed_bucket, is_uint64 in *. rewrite Hcap, Hrate, Htok.
    destruct (tokens tb =? 0) eqn:H0; [|apply Z.eqb_neq in H0]; repeat split; lia. }
  assert (Hall' : Forall (fun clk => Time.Sub (now_refillTokens clk) (lastRefillTime tb') = 0)
                         clks) by (by rewrite Hlast).
  specialize (IH rl' tb' Hl' Htyped' Hall').
  destruct (allow_each oor clks clientID rl') as [oks rl'']. simpl in *.
  rewrite IH, Htok. apply granted_then_refused. unfold is_uint64 in Ht. lia.
Qed.

(** X5: with the clock standing still, successive calls for one client
    are granted as long as the bucket has tokens and refused from then
    on: of [k] calls on a bucket of [n] tokens the first [min k n] return
    true and the others false, whatever residue the bucket holds. *)
Theorem allow_each_frozen clk0 clks clientID rl :
  let tb := bucket_of clk0 clientID rl in
  typed_bucket tb ->
  Forall (fun clk => Time.Sub (now_refillTokens clk) (lastRefillTime tb) = 0)
         (clk0 :: clks) ->
  fst (allow_each oor (clk0 :: clks) clientID rl)
  = replicate (Nat.min (S (length clks)) (Z.to_nat (tokens tb))) true
    ++ replicate (S (length clks) - Z.to_nat (tokens tb)) false.
Proof.
  intros tb Htyped Hall. subst tb.
  apply Forall_cons in Hall as [Hsub Hall].
  destruct (allowConnection_frozen clk0 clientID rl Htyped Hsub)
    as (rl' & tb' & Hallow & Hl' & Htok & Hcap & Hrate & Hlast).
  change (allow_each oor (clk0 :: clks) clientID rl)
    with (let '(ok, rl0) := allowConnection oor clk0 clientID rl in
          let '(oks, rl1) := allow_each oor clks clientID rl0 in
          (ok :: oks, rl1)).
  rewrite Hallow.
  destruct Htyped as (Hc & Ht & Hr).
  assert (Htyped' : typed_bucket tb').
  { unfold typed_bucket, is_uint64 in *. rewrite Hcap, Hrate, Htok.
    destruct (tokens (bucket_of clk0 clientID rl) =? 0) eqn:H0;
      [|apply Z.eqb_neq in H0]; repeat split; lia. }
  rewrite <- Hlast in Hall.
  pose proof (allow_each_frozen_known clks clientID rl' tb' Hl' Htyped' Hall) as IH.
  destruct (allow_each oor clks clientID rl') as [oks rl'']. simpl in *.
  rewrite IH, Htok. apply granted_then_refused. unfold is_uint64 in Ht. lia.
Qed.

End Platform.

Lemma newRateLimiter_within capacity refillRate :
  within_capacity (newRateLimiter capacity refillRate).
Proof. intros clientID tb H. simpl in H. by rewrite lookup_empty in H. Qed.


(** A run of X2: the first call of a client on a new limiter. *)
Lemma allowConnection_keeps_bounds_witness :
  within_capacity
    (snd (allowConnection (fun _ => 0) (mkClock 0 0) "client1" (newRateLimiter 5 1))).
Proof.
  destruct (allowConnection_keeps_bounds (fun _ => 0) (mkClock 0 0) "client1"
              (newRateLimiter 5 1) true
              (snd (allowConnection (fun _ => 0) (mkClock 0 0) "client1"
                      (newRateLimiter 5 1)))) as (_ & H & _).
  - apply RouteRuns.newRateLimiter_typed; by vm_compute.
  - apply newRateLimiter_within.
  - by vm_compute.
  - exact H.
Defined.

(** A run of X3: the first call of a client creates its bucket. *)
Lemma allowConnection_touches_one_bucket_witness :
  is_Some
    (clientBuckets
       (snd (allowConnection (fun _ => 0) (mkClock 0 0) "client2" (newRateLimiter 5 1)))
       !! "client2").
Proof.
  destruct (allowConnection_touches_one_bucket (fun _ => 0) (mkClock 0 0) "client2"
              (newRateLimiter 5 1) true
              (snd (allowConnection (fun _ => 0) (mkClock 0 0) "client2"
                      (newRateLimiter 5 1)))) as (_ & _ & H & _).
  - by vm_compute.
  - exact H.
Defined.

(** A run of X4: a limiter of capacity zero. *)
Lemma allowConnection_zero_capacity_witness :
  fst (allowConnection (fun _ => 0) (mkClock 0 7000000000) "client1" (newRateLimiter 0 1))
  = false.
Proof.
  apply (allowConnection_zero_capacity (fun _ => 0) (mkClock 0 7000000000) "client1"
           (newRateLimiter 0 1)).
  - apply RouteRuns.newRateLimiter_typed; by vm_compute.
  - apply newRateLimiter_within.
  - by vm_compute.
Defined.

(** A run of X5: ten calls on a new bucket of five tokens. *)
Lemma allow_each_frozen_witness :
  fst (allow_each (fun _ => 0) (replicate 10 (mkClock 0 0)) "client1" (newRateLimiter 5 1))
  = [true; true; true; true; true; false; false; false; false; false].
Proof.
  apply (allow_each_frozen (fun _ => 0) (mkClock 0 0) (replicate 9 (mkClock 0 0))
           "client1" (newRateLimiter 5 1)).
  - by vm_compute.
  - repeat constructor.
Defined.

End RateLimiterMore.

(** ** More on the balancer *)

Module BalancerMore.

Import Int IntFacts RateLimiter Balancer BalancerFacts RouteFacts Fixtures.
Local Open Scope Z_scope.

(** *** Counters *)

Lemma wrap_int64_pred_succ z :
  is_int64 z → wrap_int64 (wrap_int64 (z + -1) + 1) = z.
Proof.
  unfold is_int64, wrap_int64, min_int64, max_int64. intros Hz.
  replace ((z + -1 + 2 ^ 63) mod 2 ^ 64 - 2 ^ 63 + 1 + 2 ^ 63)
    with ((z + -1 + 2 ^ 63) mod 2 ^ 64 + 1) by lia.
  rewrite Zplus_mod_idemp_l.
  replace (z + -1 + 2 ^ 63 + 1) with (z + 2 ^ 63) by lia.
  rewrite Z.mod_small; lia.
Qed.

(** X6: on a live backend whose counter is an int64, an increment
    followed by a decrement, or a decrement followed by an increment,
    leaves the store as it was, also when the counter stands at either
    end of the int64 range; on a nil pointer both panic. *)
Theorem increment_decrement_round_trip p (mem : store) :
  typed_store mem →
  (∀ mem1, incrementConnections p mem = Some mem1 →
           decrementConnections p mem1 = Some mem) ∧
  (∀ mem1, decrementConnections p mem = Some mem1 →
           incrementConnections p mem1 = Some mem) ∧
  (mem !! p = None →
   incrementConnections p mem = None ∧ decrementConnections p mem = None).
Proof.
  intros Htyped. unfold incrementConnections, decrementConnections.
  destruct (mem !! p) as [b|] eqn:Hp.
  - pose proof (Htyped p b Hp) as Hb. simpl in Hb. repeat split; try done.
    + intros mem1 [= <-]. rewrite lookup_insert_eq, insert_insert_eq.
      rewrite (add_connections_undo b Hb). by rewrite insert_id.
    + intros mem1 [= <-]. rewrite lookup_insert_eq, insert_insert_eq.
      f_equal. unfold add_connections. simpl.
      rewrite (wrap_int64_pred_succ _ Hb).
      replace {| Address := Address b; connections := connections b |} with b
        by (by destruct b).
      by rewrite insert_id.
  - by repeat split.
Qed.

(** *** Selection *)

(** What a successful selection found. *)
Lemma GetBackend_selects_minimum backends allowed (mem mem' : store) B evs :
  GetBackend backends allowed mem = (GetOk B, mem', evs) →
  ∃ b,
    mem !! B = Some b ∧ Address b ∈ allowed ∧ B ∈ backends ∧
    mem' = <[B := add_connections 1 b]> mem ∧
    ∀ q bq, q ∈ backends → mem !! q = Some bq → Address bq ∈ allowed →
            connections b <= connections bq.
Proof.
  intros H. apply GetBackend_ok_inv in H as (l & evs0 & b & Hscan & Hb & -> & ->).
  apply scan_spec in Hscan as [[? _] | Hscan]; [done|].
  destruct Hscan as (r & pre & post & b' & [= <-] & -> & Hr & Har & <- & _ & Hpre & Hpost).
  assert (b' = b) as -> by congruence.
  exists b. repeat split; try done.
  - apply elem_of_app. right. by apply elem_of_cons; left.
  - intros q bq Hq Hbq Ha.
    apply elem_of_app in Hq as [Hq | Hq].
    + specialize (Hpre q bq Hq Hbq Ha). simpl in Hpre. lia.
    + apply elem_of_cons in Hq as [-> | Hq].
      * assert (bq = b) as -> by congruence. lia.
      * by apply (Hpost q bq).
Qed.

Lemma registered_live_add backends p (mem : store) :
  registered_live backends mem → is_Some (mem !! p) →
  registered_live (AddBackend p backends) mem.
Proof.
  intros Hlive Hp q Hq. unfold AddBackend in Hq.
  apply elem_of_app in Hq as [Hq | Hq]; [by apply Hlive|].
  by apply list_elem_of_singleton in Hq as ->.
Qed.

(** X7: once a live backend with an allowed address has been added to a
    registry of live backends, [GetBackend] returns a backend, not an
    error; and when none of the backends registered before is allowed it
    returns the one added. *)
Theorem AddBackend_then_GetBackend backends p b allowed (mem : store) :
  registered_live backends mem →
  mem !! p = Some b → Address b ∈ allowed →
  ∃ B mem' evs,
    GetBackend (AddBackend p backends) allowed mem = (GetOk B, mem', evs) ∧
    (none_allowed mem allowed backends → B = p).
Proof.
  intros Hlive Hp Ha.
  assert (Hlive' : registered_live (AddBackend p backends) mem).
  { apply registered_live_add; eauto. }
  unfold GetBackend.
  destruct (AddBackend p backends) as [|q qs] eqn:Hadd.
  { unfold AddBackend in Hadd. by destruct backends. }
  destruct (scan_live mem allowed (q :: qs) Hlive' None 0) as [[[s l] evs0] Hscan].
  rewrite Hscan. apply scan_spec in Hscan as [[-> Hnone] | Hscan].
  - exfalso. eapply (Hnone p b); [|done..].
    rewrite <- Hadd. unfold AddBackend. apply elem_of_app. right.
    by apply list_elem_of_singleton.
  - destruct Hscan as (r & pre & post & b' & -> & Hbs & Hr & Har & _).
    unfold incrementConnections. rewrite Hr.
    eexists _, _, _. split; [done|].
    intros Hnone.
    assert (Hin : r ∈ AddBackend p backends).
    { rewrite Hadd, Hbs. apply elem_of_app. right. by apply elem_of_cons; left. }
    unfold AddBackend in Hin. apply elem_of_app in Hin as [Hin | Hin].
    + exfalso. by eapply (Hnone r b').
    + by apply list_elem_of_singleton in Hin.
Qed.

(** X8: least connections keeps the load even: when the counters of the
    allowed registered backends lie within one of each other before a
    successful [GetBackend], they still do after it (the counter chosen
    being below the int64 maximum). *)
Theorem GetBackend_keeps_balance backends allowed (mem mem' : store) B evs :
  typed_store mem →
  balanced mem allowed backends →
  GetBackend backends allowed mem = (GetOk B, mem', evs) →
  (∀ b, mem !! B = Some b → connections b < max_int64) →
  balanced mem' allowed backends.
Proof.
  intros Htyped Hbal Hget Hmax.
  apply GetBackend_selects_minimum in Hget as (b & Hb & Ha & HB & -> & Hmin).
  pose proof (Htyped B b Hb) as Hrange. simpl in Hrange.
  specialize (Hmax b Hb).
  assert (Hinc : connections (add_connections 1 b) = connections b + 1).
  { simpl. apply wrap_int64_succ. unfold is_int64 in Hrange. lia. }
  intros p q bp bq Hp Hq Hbp Hbq Hap Haq.
  destruct (decide (p = B)) as [->|Hpn], (decide (q = B)) as [->|Hqn].
  - rewrite lookup_insert_eq in Hbp, Hbq. injection Hbp as <-. injection Hbq as <-. lia.
  - rewrite lookup_insert_eq in Hbp. rewrite lookup_insert_ne in Hbq by done.
    injection Hbp as <-. rewrite Hinc. specialize (Hmin q bq Hq Hbq Haq). lia.
  - rewrite lookup_insert_ne in Hbp by done. rewrite lookup_insert_eq in Hbq.
    injection Hbq as <-. rewrite Hinc.
    specialize (Hbal p B bp b Hp HB Hbp Hb Hap Ha). lia.
  - rewrite lookup_insert_ne in Hbp, Hbq by done.
    by apply (Hbal p q bp bq).
Qed.

(** *** The relay *)

(** X9: [transferData] returns nil exactly when both copies end without
    error; otherwise the joined error holds one message for each copy
    that failed, the message of that copy behind its prefix, and nothing
    else. *)
Theorem transferData_joins_failures r :
  (transferData r = None ↔
     copy_from_backend r = None ∧ copy_to_backend r = None) ∧
  (∀ msgs, transferData r = Some (ErrJoin msgs) →
     ∀ m, m ∈ msgs ↔
          (∃ err, copy_from_backend r = Some err ∧
                  m = "copying data from backend server: " ++ err)%string ∨
          (∃ err, copy_to_backend r = Some err ∧
                  m = "copying data to backend server: " ++ err)%string) ∧
  (∀ e, transferData r = Some e → ∃ msgs, e = ErrJoin msgs ∧
     length msgs = (match copy_from_backend r with Some _ => 1 | None => 0 end
                    + match copy_to_backend r with Some _ => 1 | None => 0 end)%nat).
Proof.
  unfold transferData, errors_Join.
  destruct r as [[f|] [t|] []]; simpl.
  all: split; [split; [done | by intros [? ?]] | split].
  all: try (intros e [= <-]; eexists; split; reflexivity).
  all: try done.
  all: intros msgs [= <-] m; rewrite ?elem_of_cons, elem_of_nil.
  all: split;
    [ intros [-> | H]; [|try destruct H as [-> | H]]; try done; eauto
    | intros [(err & Heq & ->) | (err & Heq & ->)];
      try discriminate; injection Heq as <-; auto ].
Qed.

(** *** Routing *)

Lemma dialed_app evs evs' : dialed (evs ++ evs') = dialed evs ++ dialed evs'.
Proof.
  induction evs as [|ev evs IH]; simpl; [done|].
  destruct ev; simpl; by rewrite ?IH.
Qed.

Lemma scan_dials_nothing mem allowed bs :
  ∀ sel least s l evs,
    scan mem allowed bs sel least = Some (s, l, evs) → dialed evs = [].
Proof.
  induction bs as [|q bs IH]; intros sel least s l evs H; simpl in H.
  - by injection H as _ _ <-.
  - destruct (mem !! q) as [b|]; [|done].
    destruct (decide (Address b ∈ allowed)); [|by eapply IH].
    destruct sel as [q'|]; [destruct (connections b <? least)|].
    all: match type of H with
         | context [scan ?m ?a ?b ?s ?l] =>
             destruct (scan m a b s l) as [[[s' l'] evs']|] eqn:Hs; [|done]
         end; simpl in H; injection H as <- <- <-; simpl; by eapply IH.
Qed.

Lemma GetBackend_dials_nothing backends allowed (mem mem' : store) r evs :
  GetBackend backends allowed mem = (r, mem', evs) → dialed evs = [].
Proof.
  unfold GetBackend. destruct backends as [|p bs]; [by intros [= <- <- <-]|].
  destruct (scan mem allowed (p :: bs) None 0) as [[[[s|] l] evs0]|] eqn:Hscan.
  - apply scan_dials_nothing in Hscan.
    destruct (incrementConnections s mem); intros [= <- <- <-]; [|done].
    by rewrite dialed_app, Hscan.
  - apply scan_dials_nothing in Hscan. by intros [= <- <- <-].
  - by intros [= <- <- <-].
Qed.

Lemma dial_and_transfer_dialed e address r evs :
  dial_and_transfer e address = (r, evs) → dialed evs = [address].
Proof.
  unfold dial_and_transfer. destruct (env_dial e address); by intros [= <- <-].
Qed.

(** What [RouteConnection] dials. *)
Lemma RouteConnection_dialed e clientID allowed lb (mem mem' : store) r lb' evs :
  RouteConnection e clientID allowed lb mem = (r, lb', mem', evs) →
  dialed evs = [] ∨
  ∃ p b, dialed evs = [Address b] ∧ p ∈ backends lb ∧ mem !! p = Some b ∧
         Address b ∈ allowed.
Proof.
  unfold RouteConnection.
  destruct (allowConnection _ _ _ _) as [[] rl']; simpl; [|intros [= <- <- <- <-]; by left].
  destruct (GetBackend (backends lb) allowed mem) as [[[B|err|] mem1] evs1] eqn:Hget.
  - pose proof (GetBackend_dials_nothing _ _ _ _ _ _ Hget) as Hnone.
    apply GetBackend_selects_minimum in Hget as (b & Hb & Ha & HB & -> & _).
    rewrite lookup_insert_eq.
    destruct (dial_and_transfer e (Address (add_connections 1 b))) as [r0 evs'] eqn:Hdt.
    apply dial_and_transfer_dialed in Hdt.
    unfold decrementConnections. rewrite lookup_insert_eq.
    intros [= <- <- <- <-]. right. exists B, b.
    rewrite !dialed_app, Hnone, Hdt. simpl. done.
  - apply GetBackend_dials_nothing in Hget. intros [= <- <- <- <-]. by left.
  - apply GetBackend_dials_nothing in Hget. intros [= <- <- <- <-]. by left.
Qed.

(** X10: [RouteConnection] dials at most one address, and only the
    address of a registered backend that the client is allowed to use. *)
Theorem RouteConnection_dials_allowed e clientID allowed lb (mem mem' : store)
    r lb' evs :
  RouteConnection e clientID allowed lb mem = (r, lb', mem', evs) →
  (length (dialed evs) <= 1)%nat ∧
  ∀ address, address ∈ dialed evs →
    address ∈ allowed ∧
    ∃ p b, p ∈ backends lb ∧ mem !! p = Some b ∧ Address b = address.
Proof.
  intros H. apply RouteConnection_dialed in H as [-> | (p & b & -> & Hp & Hb & Ha)].
  - split; [simpl; lia|]. intros address Hin. by apply elem_of_nil in Hin.
  - split; [simpl; lia|]. intros address Hin.
    apply list_elem_of_singleton in Hin as ->. split; [done|]. by exists p, b.
Qed.

Lemma transferData_nil r :
  transferData r = None ↔ copy_from_backend r = None ∧ copy_to_backend r = None.
Proof.
  unfold transferData, errors_Join.
  destruct r as [[f|] [t|] []]; simpl; split; try done; by intros [? ?].
Qed.

(** X11: [RouteConnection] returns nil exactly when the limiter admits
    the client, [GetBackend] selects a backend, the dial of its address
    succeeds and both copies of the relay end without error. *)
Theorem RouteConnection_nil_iff e clientID allowed lb (mem mem' : store) r lb' evs :
  RouteConnection e clientID allowed lb mem = (r, lb', mem', evs) →
  (r = RouteReturn None ↔
     fst (allowConnection (env_oor e) (env_clock e) clientID (rateLimiter lb)) = true ∧
     (∃ B mem1 evs1 b,
        GetBackend (backends lb) allowed mem = (GetOk B, mem1, evs1) ∧
        mem !! B = Some b ∧ env_dial e (Address b) = DialOk) ∧
     copy_from_backend (env_relay e) = None ∧
     copy_to_backend (env_relay e) = None).
Proof.
  unfold RouteConnection.
  destruct (allowConnection _ _ _ _) as [[] rl']; simpl;
    [|intros [= <- <- <- <-]; split; [done|by intros [? _]]].
  destruct (GetBackend (backends lb) allowed mem) as [[[B|err|] mem1] evs1] eqn:Hget.
  - pose proof Hget as Hmin.
    apply GetBackend_selects_minimum in Hmin as (b & Hb & Ha & HB & -> & _).
    rewrite lookup_insert_eq. unfold decrementConnections. rewrite lookup_insert_eq.
    unfold dial_and_transfer. simpl.
    destruct (env_dial e (Address b)) eqn:Hdial; intros [= <- <- <- <-].
    + split.
      * intros [= Ht]. apply transferData_nil in Ht as [? ?].
        split; [done|]. split; [|done]. eexists B, _, _, b. by split.
      * intros (_ & _ & Hf & Ht). f_equal. apply transferData_nil. done.
    + split; [done|]. intros (_ & (B' & m1 & e1 & b' & [= <- _ _] & Hb' & Hd) & _).
      assert (b' = b) as -> by congruence. congruence.
    + split; [done|]. intros (_ & (B' & m1 & e1 & b' & [= <- _ _] & Hb' & Hd) & _).
      assert (b' = b) as -> by congruence. congruence.
  - intros [= <- <- <- <-]. split; [done|]. by intros (_ & (? & ? & ? & ? & ? & _) & _).
  - intros [= <- <- <- <-]. split; [done|]. by intros (_ & (? & ? & ? & ? & ? & _) & _).
Qed.

(** What one call leaves of the registry and of the counters. *)
Lemma RouteConnection_restores e clientID allowed lb (mem mem' : store) r lb' evs :
  typed_store mem →
  RouteConnection e clientID allowed lb mem = (r, lb', mem', evs) →
  mem' = mem ∧ backends lb' = backends lb ∧
  ∀ p, count_add p 1 evs = count_add p (-1) evs.
Proof.
  intros Htyped. unfold RouteConnection.
  destruct (allowConnection _ _ _ _) as [[] rl']; simpl; [|by intros [= <- <- <- <-]].
  destruct (GetBackend (backends lb) allowed mem) as [[[B|err|] mem1] evs1] eqn:Hget.
  - pose proof (GetBackend_ok_inv _ _ _ _ _ _ Hget) as (l & evs0 & b & Hscan & Hb & -> & ->).
    rewrite lookup_insert_eq.
    destruct (dial_and_transfer e (Address (add_connections 1 b))) as [r0 evs'] eqn:Hdt.
    unfold decrementConnections. rewrite lookup_insert_eq.
    intros [= <- <- <- <-]. simpl.
    rewrite insert_insert_eq, (add_connections_undo b (Htyped _ _ Hb)).
    rewrite (insert_id mem B b Hb). repeat split; try done.
    intros p. rewrite !count_add_app.
    rewrite (dial_and_transfer_no_add _ _ _ _ p 1 Hdt).
    rewrite (dial_and_transfer_no_add _ _ _ _ p (-1) Hdt).
    rewrite (scan_reads_only _ _ _ _ _ _ _ _ Hscan p 1).
    rewrite (scan_reads_only _ _ _ _ _ _ _ _ Hscan p (-1)).
    simpl. destruct (decide (B = p)) as [->|Hne].
    + rewrite (decide_True (P := p = p ∧ 1 = 1)) by done.
      rewrite (decide_True (P := p = p ∧ -1 = -1)) by done.
      rewrite (decide_False (P := p = p ∧ -1 = 1)) by (intros [_ ?]; done).
      by rewrite (decide_False (P := p = p ∧ 1 = -1)) by (intros [_ ?]; done).
    + by rewrite !decide_False by (intros [? _]; done).
  - unfold GetBackend in Hget. destruct (backends lb) as [|q qs].
    + injection Hget as <- <- <-. by intros [= <- <- <- <-].
    + destruct (scan mem allowed (q :: qs) None 0) as [[[[s|] l] evs0]|] eqn:Hscan.
      * destruct (incrementConnections s mem); done.
      * injection Hget as <- <- <-. intros [= <- <- <- <-]. repeat split; try done.
        intros p. by rewrite !(scan_reads_only _ _ _ _ _ _ _ _ Hscan).
      * done.
  - unfold GetBackend in Hget. destruct (backends lb) as [|q qs]; [done|].
    destruct (scan mem allowed (q :: qs) None 0) as [[[[s|] l] evs0]|] eqn:Hscan.
    + unfold incrementConnections in Hget.
      destruct (mem !! s) eqn:Hs; [done|].
      apply scan_spec in Hscan as [[? _] | Hscan]; [done|].
      destruct Hscan as (r0 & pre & post & b' & [= <-] & _ & Hr & _). congruence.
    + done.
    + injection Hget as <- <-. by intros [= <- <- <- <-].
Qed.

(** X12: calls of [RouteConnection] one after the other, however each
    ends, leave every counter at the value it had before the first and
    the registry as it was; in the trace each backend is incremented as
    often as it is decremented, and there is one result per call unless
    a call panics, which is then the last. *)
Theorem route_each_restores calls :
  ∀ lb (mem mem' : store) rs lb' evs,
    typed_store mem →
    route_each calls lb mem = (rs, lb', mem', evs) →
    mem' = mem ∧ backends lb' = backends lb ∧
    (length rs = length calls ∨ last rs = Some RoutePanic) ∧
    ∀ p, count_add p 1 evs = count_add p (-1) evs.
Proof.
  induction calls as [|c calls IH]; intros lb mem mem' rs lb' evs Htyped H; simpl in H.
  - injection H as <- <- <- <-. repeat split; try done. by left.
  - destruct (RouteConnection (call_env c) (call_clientID c) (call_allowed c) lb mem)
      as [[[r lb1] mem1] evs1] eqn:Hr.
    destruct (RouteConnection_restores _ _ _ _ _ _ _ _ _ Htyped Hr) as (-> & Hb1 & Hc1).
    destruct r as [err|].
    + destruct (route_each calls lb1 mem) as [[[rs2 lb2] mem2] evs2] eqn:Hrest.
      injection H as <- <- <- <-.
      destruct (IH _ _ _ _ _ _ Htyped Hrest) as (-> & Hb2 & Hlen & Hc2).
      split; [done|]. split; [congruence|]. split.
      * destruct Hlen as [Hlen | Hlast]; [left; simpl; by rewrite Hlen|].
        right. destruct rs2 as [|r2 rs2]; [done|]. exact Hlast.
      * intros p. by rewrite !count_add_app, Hc1, Hc2.
    + injection H as <- <- <- <-. split; [done|]. split; [done|].
      split; [by right|done].
Qed.

(** *** Runs on the values of the tests *)

Lemma mem12_live : registered_live [1; 2]%positive mem12.
Proof.
  intros p Hp. apply elem_of_cons in Hp as [-> | Hp]; [vm_compute; eauto|].
  apply list_elem_of_singleton in Hp as ->. vm_compute. eauto.
Qed.

Lemma mem12_balanced : balanced mem12 allowed12 [1; 2]%positive.
Proof.
  intros p q bp bq Hp Hq Hbp Hbq _ _.
  apply elem_of_cons in Hp as [-> | Hp];
    [|apply list_elem_of_singleton in Hp as ->];
    (apply elem_of_cons in Hq as [-> | Hq];
     [|apply list_elem_of_singleton in Hq as ->]);
    vm_compute in Hbp, Hbq; injection Hbp as <-; injection Hbq as <-; by vm_compute.
Qed.

(** A run of X6: [backend1] incremented, then decremented. *)
Lemma increment_decrement_round_trip_witness :
  decrementConnections 1%positive (<[1%positive := add_connections 1 backend1]> mem12)
  = Some mem12.
Proof.
  destruct (increment_decrement_round_trip 1%positive mem12 RouteRuns.mem12_typed)
    as (H & _).
  apply H. by vm_compute.
Defined.

(** A run of X7: [backend2] added after [backend1], for a client allowed
    to use [backend2] only. *)
Lemma AddBackend_then_GetBackend_witness :
  ∃ B mem' evs,
    GetBackend (AddBackend 2%positive [1%positive]) {["127.0.0.1:5002"]} mem12
    = (GetOk B, mem', evs) ∧
    (none_allowed mem12 {["127.0.0.1:5002"]} [1%positive] → B = 2%positive).
Proof.
  apply (AddBackend_then_GetBackend [1%positive] 2%positive backend2
           {["127.0.0.1:5002"]} mem12).
  - intros p Hp. apply list_elem_of_singleton in Hp as ->. vm_compute. eauto.
  - by vm_compute.
  - by vm_compute.
Defined.

(** A run of X8: the first selection among two idle backends. *)
Lemma GetBackend_keeps_balance_witness :
  balanced (<[1%positive := add_connections 1 backend1]> mem12) allowed12 [1; 2]%positive.
Proof.
  apply (GetBackend_keeps_balance [1; 2]%positive allowed12 mem12 _ 1%positive
           [EvLoad 1%positive; EvLoad 2%positive; EvAdd 1%positive 1]).
  - apply RouteRuns.mem12_typed.
  - apply mem12_balanced.
  - by vm_compute.
  - intros b Hb. vm_compute in Hb. injection Hb as <-. by vm_compute.
Defined.

(** A run of X10: a routed connection dials one address. *)
Lemma RouteConnection_dials_allowed_witness :
  (length (dialed (RouteConnection mockEnv "client1" allowed12 (lb12 5) mem12).2) <= 1)%nat.
Proof.
  destruct (RouteConnection_dials_allowed mockEnv "client1" allowed12 (lb12 5) mem12
              (RouteConnection mockEnv "client1" allowed12 (lb12 5) mem12).1.2
              (RouteConnection mockEnv "client1" allowed12 (lb12 5) mem12).1.1.1
              (RouteConnection mockEnv "client1" allowed12 (lb12 5) mem12).1.1.2
              (RouteConnection mockEnv "client1" allowed12 (lb12 5) mem12).2) as [H _].
  - by vm_compute.
  - exact H.
Defined.

(** A run of X11: the dial is refused, so the result is not nil. *)
Lemma RouteConnection_nil_iff_witness :
  RouteReturn (Some (ErrDial "connection refused")) = RouteReturn None ↔
  fst (allowConnection (env_oor refusedEnv) (env_clock refusedEnv) "client1"
         (rateLimiter (lb12 5))) = true ∧
  (∃ B mem1 evs1 b,
     GetBackend (backends (lb12 5)) allowed12 mem12 = (GetOk B, mem1, evs1) ∧
     mem12 !! B = Some b ∧ env_dial refusedEnv (Address b) = DialOk) ∧
  copy_from_backend (env_relay refusedEnv) = None ∧
  copy_to_backend (env_relay refusedEnv) = None.
Proof.
  apply (RouteConnection_nil_iff refusedEnv "client1" allowed12 (lb12 5) mem12 mem12 _
           (RouteConnection refusedEnv "client1" allowed12 (lb12 5) mem12).1.1.2
           (RouteConnection refusedEnv "client1" allowed12 (lb12 5) mem12).2).
  by vm_compute.
Defined.

(** A run of X12: a connection relayed, then one whose dial is refused. *)
Lemma route_each_restores_witness :
  (route_each [mkCall mockEnv "client1" allowed12; mkCall refusedEnv "client2" allowed12]
     (lb12 5) mem12).1.2 = mem12.
Proof.
  destruct (route_each_restores
              [mkCall mockEnv "client1" allowed12; mkCall refusedEnv "client2" allowed12]
              (lb12 5) mem12
              (route_each [mkCall mockEnv "client1" allowed12;
                           mkCall refusedEnv "client2" allowed12] (lb12 5) mem12).1.2
              (route_each [mkCall mockEnv "client1" allowed12;
                           mkCall refusedEnv "client2" allowed12] (lb12 5) mem12).1.1.1
              (route_each [mkCall mockEnv "client1" allowed12;
                           mkCall refusedEnv "client2" allowed12] (lb12 5) mem12).1.1.2
              (route_each [mkCall mockEnv "client1" allowed12;
                           mkCall refusedEnv "client2" allowed12] (lb12 5) mem12).2)
    as (H & _).
  - apply RouteRuns.mem12_typed.
  - by vm_compute.
  - exact H.
Defined.

End BalancerMore.

(** ** More on the server *)

Module ServerMore.

Import Balancer BalancerMore Server ServerFacts Fixtures.
Local Open Scope Z_scope.

(** *** Authentication and authorization *)

(** X13: [AuthenticateClient] returns a certificate exactly when the
    connection is a TLS connection, the handshake succeeds, and the first
    certificate the peer presents has a non-empty CommonName that is a
    key of the map of allowed clients; the certificate returned is that
    first one, and the value the map holds for the name plays no part. *)
Theorem AuthenticateClient_accepts c (allowedClients : gmap string bool) cert :
  AuthenticateClient c allowedClients = inl cert ↔
  conn_is_tls c = true ∧ conn_handshake c = None ∧
  head (conn_peer_certificates c) = Some cert ∧
  CommonName cert ≠ EmptyString ∧
  is_Some (allowedClients !! CommonName cert).
Proof.
  unfold AuthenticateClient, GetClientCertificate.
  destruct (conn_is_tls c); simpl; [|split; [done|by intros [? _]]].
  destruct (conn_handshake c); [split; [done|by intros (_ & ? & _)]|].
  destruct (conn_peer_certificates c) as [|first others]; simpl;
    [split; [done|by intros (_ & _ & ? & _)]|].
  destruct (ValidateCommonName first allowedClients) as [err|] eqn:Hv.
  - split; [done|]. intros (_ & _ & [= <-] & Hne & Hkey).
    assert (ValidateCommonName first allowedClients = None) as Hnone
      by (by apply ValidateCommonName_accepts_keys).
    congruence.
  - apply ValidateCommonName_accepts_keys in Hv as [Hne Hkey]. split.
    + by intros [= <-].
    + by intros (_ & _ & [= <-] & _).
Qed.

Lemma NewServer_None_inv config hasLoadBalancer hasTLSConfig :
  NewServer config hasLoadBalancer hasTLSConfig = None →
  ListenAddress config ≠ EmptyString ∧
  hasLoadBalancer = true ∧ hasTLSConfig = true ∧
  AllowedClients config ≠ ∅ ∧ ClientBackendACL config ≠ ∅.
Proof.
  unfold NewServer.
  destruct (decide (ListenAddress config = EmptyString)) as [Ha|Ha]; [done|].
  destruct hasLoadBalancer; simpl; [|done].
  destruct hasTLSConfig; simpl; [|done].
  destruct (decide (size (AllowedClients config) = 0%nat)) as [Hc|Hc]; [done|].
  destruct (decide (size (ClientBackendACL config) = 0%nat)) as [Hl|Hl]; [done|].
  intros _. repeat split; try done.
  - intros He. apply Hc. by apply map_size_empty_iff.
  - intros He. apply Hl. by apply map_size_empty_iff.
Qed.

Lemma NewServer_None_intro config :
  ListenAddress config ≠ EmptyString →
  AllowedClients config ≠ ∅ → ClientBackendACL config ≠ ∅ →
  NewServer config true true = None.
Proof.
  intros Ha Hc Hl. unfold NewServer.
  destruct (decide (ListenAddress config = EmptyString)); [done|]. simpl.
  destruct (decide (size (AllowedClients config) = 0%nat)) as [Hc0|_].
  { by apply map_size_empty_iff in Hc0. }
  destruct (decide (size (ClientBackendACL config) = 0%nat)) as [Hl0|_]; [|done].
  by apply map_size_empty_iff in Hl0.
Qed.

(** X14: [NewServer] builds a server exactly when the address is not
    blank, the balancer and the TLS configuration are given, and neither
    the map of allowed clients nor the access control list is empty. *)
Theorem NewServer_accepts config hasLoadBalancer hasTLSConfig :
  NewServer config hasLoadBalancer hasTLSConfig = None ↔
  ListenAddress config ≠ EmptyString ∧
  hasLoadBalancer = true ∧ hasTLSConfig = true ∧
  AllowedClients config ≠ ∅ ∧ ClientBackendACL config ≠ ∅.
Proof.
  split; [apply NewServer_None_inv|].
  intros (Ha & -> & -> & Hc & Hl). by apply NewServer_None_intro.
Qed.

(** X15: a connection that fails authentication, or whose identity is
    not a key of the access control list, is turned away before the
    balancer is reached: [handleConnection] returns an error, the
    balancer (its rate limiter included) and the counters are those it
    was called on, and nothing is dialed or counted. *)
Theorem handleConnection_turns_away e config c lb (mem mem' : store) r lb' evs :
  handleConnection e config c lb mem = (r, lb', mem', evs) →
  (∀ cert,
     AuthenticateClient c (AllowedClients config) = inl cert →
     ClientBackendACL config
       !! GenerateClientID (CommonName cert) (big_Int_String (SerialNumber cert))
     = None) →
  ((∃ err, r = Some (ErrAuthentication err)) ∨
   (∃ cn clientID, r = Some (ErrAuthorization cn (ErrNotListed clientID)))) ∧
  lb' = lb ∧ mem' = mem ∧ evs = [].
Proof.
  unfold handleConnection, AuthorizeClient. intros H Hno.
  destruct (AuthenticateClient c (AllowedClients config)) as [cert|err].
  - rewrite (Hno cert eq_refl) in H. injection H as <- <- <- <-.
    split; [right; eauto|done].
  - injection H as <- <- <- <-. split; [left; eauto|done].
Qed.

(** X16: whatever [handleConnection] dials is a backend of the entry the
    access control list holds for the identity of an authenticated
    client: no backend outside that entry is ever dialed, and none at
    all for a client that is not authenticated or not listed. *)
Theorem handleConnection_dials_within_acl e config c lb (mem mem' : store) r lb' evs :
  handleConnection e config c lb mem = (r, lb', mem', evs) →
  ∀ address, address ∈ dialed evs →
    ∃ cert allowedBackends,
      AuthenticateClient c (AllowedClients config) = inl cert ∧
      ClientBackendACL config
        !! GenerateClientID (CommonName cert) (big_Int_String (SerialNumber cert))
      = Some allowedBackends ∧
      address ∈ allowedBackends.
Proof.
  unfold handleConnection, AuthorizeClient. intros H address Hin.
  destruct (AuthenticateClient c (AllowedClients config)) as [cert|err];
    [|injection H as <- <- <- <-; by apply elem_of_nil in Hin].
  destruct (ClientBackendACL config !! _) as [allowedBackends|] eqn:Hacl;
    [|injection H as <- <- <- <-; by apply elem_of_nil in Hin].
  destruct (RouteConnection e _ allowedBackends lb mem) as [[[r0 lb0] mem0] evs0] eqn:Hr.
  assert (evs = evs0) as -> by (destruct r0 as [[?|]|]; by injection H as <- <- <- <-).
  apply RouteConnection_dialed in Hr as [Hr | (p & b & Hr & _ & _ & Ha)];
    rewrite Hr in Hin; [by apply elem_of_nil in Hin|].
  apply list_elem_of_singleton in Hin as ->. by exists cert, allowedBackends.
Qed.

(** *** The client identity *)

Lemma hextable_at_lower_hex d :
  0 <= d < 16 → is_lower_hex (Hex.hextable_at d) = true.
Proof.
  intros Hd.
  assert (H : d = 0 ∨ d = 1 ∨ d = 2 ∨ d = 3 ∨ d = 4 ∨ d = 5 ∨ d = 6 ∨ d = 7 ∨
              d = 8 ∨ d = 9 ∨ d = 10 ∨ d = 11 ∨ d = 12 ∨ d = 13 ∨ d = 14 ∨ d = 15)
    by lia.
  repeat (destruct H as [-> | H]; [reflexivity|]). by subst d.
Qed.

Lemma EncodeToString_lower_hex bytes :
  Forall is_byte bytes →
  Forall (λ c, is_lower_hex c = true) (list_ascii_of_string (Hex.EncodeToString bytes)).
Proof.
  induction 1 as [|b bytes Hb _ IH]; simpl; [constructor|].
  unfold is_byte in Hb.
  constructor; [|constructor; [|done]].
  - apply hextable_at_lower_hex. rewrite Z.shiftr_div_pow2 by lia.
    split; [apply Z.div_pos; lia | apply Z.div_lt_upper_bound; lia].
  - apply hextable_at_lower_hex. change 15 with (Z.ones 4).
    rewrite Z.land_ones by lia. apply Z.mod_pos_bound. lia.
Qed.

(** X17: whatever the CommonName and the serial number, the identity
    [GenerateClientID] returns has 64 characters, each a digit or a
    letter from a to f. *)
Theorem GenerateClientID_shape cn serialNumber :
  String.length (GenerateClientID cn serialNumber) = 64%nat ∧
  Forall (λ c, is_lower_hex c = true)
         (list_ascii_of_string (GenerateClientID cn serialNumber)).
Proof.
  split; [apply GenerateClientID_length|].
  unfold GenerateClientID. apply EncodeToString_lower_hex, Sum256_bytes.
Qed.

Lemma no_colon_digits d : no_colon (NilEmpty.string_of_uint d) = true.
Proof. induction d; simpl; done. Qed.

Lemma big_Int_String_no_colon n : no_colon (big_Int_String n) = true.
Proof.
  unfold big_Int_String, NilZero.string_of_int, NilZero.string_of_uint.
  destruct (Z.to_int n) as [d|d]; destruct d; simpl; try done; apply no_colon_digits.
Qed.

Lemma big_Int_String_inj n1 n2 :
  big_Int_String n1 = big_Int_String n2 → n1 = n2.
Proof.
  unfold big_Int_String. intros H.
  assert (Hisi : ∀ n, NilZero.int_of_string (NilZero.string_of_int (Z.to_int n))
                      = Some (Z.to_int n)).
  { intros n. apply NilZero.isi; destruct n; simpl; try done;
      intros [= Hp]; by apply (Unsigned.to_uint_nonnil p). }
  pose proof (Hisi n1) as H1. rewrite H, Hisi in H1. injection H1 as H1.
  rewrite <- (DecimalZ.of_to n1), <- (DecimalZ.of_to n2). by rewrite H1.
Qed.

Lemma string_app_nil (s : string) : ("" ++ s)%string = s.
Proof. reflexivity. Qed.

Lemma string_app_cons c (s t : string) :
  (String c s ++ t)%string = String c (s ++ t)%string.
Proof. reflexivity. Qed.

Lemma no_colon_middle cn s : no_colon (cn ++ String ":" s)%string = false.
Proof.
  induction cn as [|c cn IH].
  - by rewrite string_app_nil.
  - rewrite string_app_cons. simpl. rewrite IH. apply andb_false_r.
Qed.

Lemma Sprintf_s_colon_s_inj cn1 :
  ∀ cn2 s1 s2,
    no_colon s1 = true → no_colon s2 = true →
    Sprintf_s_colon_s cn1 s1 = Sprintf_s_colon_s cn2 s2 →
    cn1 = cn2 ∧ s1 = s2.
Proof.
  unfold Sprintf_s_colon_s.
  induction cn1 as [|c1 cn1 IH]; intros [|c2 cn2] s1 s2 H1 H2 H;
    rewrite ?string_app_nil, ?string_app_cons in H;
    rewrite ?string_app_nil in H.
  - by injection H as ->.
  - injection H as Hc H. subst s1. by rewrite no_colon_middle in H1.
  - injection H as Hc H. subst s2. by rewrite no_colon_middle in H2.
  - injection H as Hc H. subst c2.
    destruct (IH cn2 s1 s2 H1 H2 H) as [-> ->]. done.
Qed.

(** X18: the text [handleConnection] hashes determines the certificate:
    two certificates with the same text have the same CommonName and the
    same serial number, a colon in a CommonName notwithstanding, because
    the decimal serial holds none; so two clients share an identity only
    where SHA-256 collides. *)
Theorem identity_text_injective cert1 cert2 :
  identity_text cert1 = identity_text cert2 → cert1 = cert2.
Proof.
  unfold identity_text. intros H.
  apply Sprintf_s_colon_s_inj in H as [Hcn Hs];
    try apply big_Int_String_no_colon.
  apply big_Int_String_inj in Hs. destruct cert1, cert2. simpl in *. congruence.
Qed.

(** *** The accept loop *)

Lemma acceptConnections_shutdown_silent retryCount turns :
  fst (acceptConnections true retryCount turns) = [].
Proof. destruct turns as [|t rest]; simpl; [done|]. by destruct (turn_stop t). Qed.

(** X19: the loop hands to [handleConnection] the connections the
    listener holds, in their order and without leaving one out, up to the
    turn in which it stops; none of a later turn is handled, and none of
    the turn in which [Stop] runs. *)
Theorem acceptConnections_handles_in_order turns :
  ∀ shutdown retryCount,
    handled (fst (acceptConnections shutdown retryCount turns)) `prefix_of` offered turns ∧
    ∀ pre t post,
      turns = pre ++ t :: post → turn_stop t ≠ NoStop →
      handled (fst (acceptConnections shutdown retryCount turns)) `prefix_of` offered pre.
Proof.
  induction turns as [|t rest IH]; intros shutdown retryCount.
  { split; [done|]. intros [|? ?] ? ? ?; done. }
  assert (Hsilent : ∀ rc l, handled (fst (acceptConnections true rc rest)) `prefix_of` l).
  { intros rc l. rewrite acceptConnections_shutdown_silent. apply prefix_nil. }
  assert (Hthis :
    handled (fst (acceptConnections shutdown retryCount (t :: rest)))
    = match turn_stop t, shutdown, turn_listener t with
      | NoStop, false, Accepted c =>
          c :: handled (fst (acceptConnections false 0 rest))
      | NoStop, false, AcceptFailed _ =>
          if (retryCount <? retryLimit)%nat
          then handled (fst (acceptConnections false (S retryCount) rest))
          else []
      | _, _, _ => []
      end).
  { simpl. destruct (turn_stop t), shutdown; simpl; try done.
    - destruct (turn_listener t) as [c|err]; simpl.
      + by destruct (acceptConnections false 0 rest).
      + destruct (retryCount <? retryLimit)%nat; [|done].
        by destruct (acceptConnections false (S retryCount) rest).
    - destruct (retryCount <? retryLimit)%nat; [|done].
      pose proof (acceptConnections_shutdown_silent (S retryCount) rest) as Hs.
      destruct (acceptConnections true (S retryCount) rest). simpl in *.
      by rewrite Hs. }
  rewrite Hthis. split.
  - simpl offered.
    destruct (turn_stop t), shutdown, (turn_listener t) as [c|err];
      try apply prefix_nil.
    + apply prefix_cons. apply IH.
    + destruct (retryCount <? retryLimit)%nat; [apply IH|apply prefix_nil].
  - intros [|t0 pre] t1 post Heq Hstop.
    + injection Heq as <- _.
      destruct (turn_stop t), shutdown, (turn_listener t); done.
    + injection Heq as <- ->. simpl offered.
      destruct (turn_stop t), shutdown, (turn_listener t) as [c|err];
        try apply prefix_nil.
      * apply prefix_cons. by eapply IH.
      * destruct (retryCount <? retryLimit)%nat; [by eapply IH|apply prefix_nil].
Qed.

Lemma accept_fails_run retryCount :
  ∀ turns shutdown evs,
    (retryCount <= 5)%nat →
    acceptConnections shutdown retryCount turns = (evs, LoopFatal) →
    (∃ run post, turns = run ++ post ∧ length run = (6 - retryCount)%nat ∧
                 Forall (λ t, accept_fails t = true) run) ∨
    (∃ pre six post, turns = pre ++ six ++ post ∧ length six = 6%nat ∧
                     Forall (λ t, accept_fails t = true) six).
Proof.
  intros turns. revert retryCount.
  induction turns as [|t rest IH]; intros retryCount shutdown evs Hle H; simpl in H;
    [done|].
  destruct (turn_stop t) eqn:Hstop; [destruct shutdown; [done|]|done|destruct shutdown; [done|]].
  - (* no stop *)
    unfold accept in H. destruct (turn_listener t) as [c|err] eqn:Hl.
    + destruct (acceptConnections false 0 rest) as [evs' st] eqn:Hrest.
      injection H as <- ->.
      destruct (IH 0%nat false evs' ltac:(lia) Hrest)
        as [(run & post & -> & Hlen & Hall) | (pre & six & post & -> & Hlen & Hall)].
      * right. exists [t], run, post. by rewrite Nat.sub_0_r in Hlen.
      * right. by exists (t :: pre), six, post.
    + assert (Hf : accept_fails t = true) by (unfold accept_fails; by rewrite Hstop, Hl).
      destruct (retryCount <? retryLimit)%nat eqn:Hlt.
      * destruct (acceptConnections false (S retryCount) rest) as [evs' st] eqn:Hrest.
        injection H as <- ->. apply Nat.ltb_lt in Hlt. unfold retryLimit in Hlt.
        destruct (IH (S retryCount) false evs' ltac:(lia) Hrest)
          as [(run & post & -> & Hlen & Hall) | (pre & six & post & -> & Hlen & Hall)].
        -- left. exists (t :: run), post. repeat split; [simpl; lia|by constructor].
        -- right. by exists (t :: pre), six, post.
      * apply Nat.ltb_ge in Hlt. unfold retryLimit in Hlt.
        left. exists [t], rest. repeat split; [simpl; lia|by repeat constructor].
  - (* Stop during Accept *)
    assert (Hf : accept_fails t = true) by (unfold accept_fails; by rewrite Hstop).
    unfold accept in H.
    destruct (retryCount <? retryLimit)%nat eqn:Hlt.
    + destruct (acceptConnections true (S retryCount) rest) as [evs' st] eqn:Hrest.
      injection H as <- ->. apply Nat.ltb_lt in Hlt. unfold retryLimit in Hlt.
      destruct (IH (S retryCount) true evs' ltac:(lia) Hrest)
        as [(run & post & -> & Hlen & Hall) | (pre & six & post & -> & Hlen & Hall)].
      * left. exists (t :: run), post. repeat split; [simpl; lia|by constructor].
      * right. by exists (t :: pre), six, post.
    + apply Nat.ltb_ge in Hlt. unfold retryLimit in Hlt.
      left. exists [t], rest. repeat split; [simpl; lia|by repeat constructor].
Qed.

(** X20: the loop ends the process through [log.Fatalf] only after
    [Accept] has failed six times in a row, and it does end it when the
    listener fails six times from the start, having slept five times; an
    accepted connection in between starts the count afresh. *)
Theorem acceptConnections_fatal_after_six turns evs :
  acceptConnections false 0 turns = (evs, LoopFatal) →
  (∃ pre six post,
     turns = pre ++ six ++ post ∧ length six = 6%nat ∧
     Forall (λ t, accept_fails t = true) six) ∧
  ∀ six post,
    length six = 6%nat →
    Forall (λ t, turn_stop t = NoStop ∧ accept_fails t = true) six →
    snd (acceptConnections false 0 (six ++ post)) = LoopFatal ∧
    sleeps (fst (acceptConnections false 0 (six ++ post))) = 5%nat.
Proof.
  intros H. split.
  - apply accept_fails_run in H as [(run & post & -> & Hlen & Hall) | H]; [|done|lia].
    by exists [], run, post.
  - clear. intros six post Hlen Hall.
    destruct six as [|t1 [|t2 [|t3 [|t4 [|t5 [|t6 [|]]]]]]]; try done.
    repeat match goal with
           | H : Forall _ (_ :: _) |- _ => apply Forall_cons in H as [[? ?] H]
           end.
    unfold accept_fails in *.
    repeat match goal with
           | H : turn_stop ?t = NoStop |- _ =>
               destruct t as [[?|?] ?]; simpl in *; subst; try done
           end.
Qed.

(** A run of X15: a connection that is not a TLS connection. *)
Lemma handleConnection_turns_away_witness :
  (handleConnection mockEnv (mkServerConfig ":3003" {["client1.example.com" := true]} ∅)
     (mkConn false None []) (lb12 5) mem12).1.1.2 = lb12 5.
Proof.
  destruct (handleConnection_turns_away mockEnv
              (mkServerConfig ":3003" {["client1.example.com" := true]} ∅)
              (mkConn false None []) (lb12 5) mem12 mem12
              (Some (ErrAuthentication ErrExpectedTLS)) (lb12 5) [])
    as (_ & H & _).
  - by vm_compute.
  - intros cert H. by vm_compute in H.
  - by vm_compute.
Defined.

(** A run of X16: the client of the configuration reaches a backend of
    its entry. *)
Lemma handleConnection_dials_within_acl_witness :
  ∃ cert allowedBackends,
    AuthenticateClient conn1 (AllowedClients serverConfig1) = inl cert ∧
    ClientBackendACL serverConfig1
      !! GenerateClientID (CommonName cert) (big_Int_String (SerialNumber cert))
    = Some allowedBackends ∧
    "127.0.0.1:5001"%string ∈ allowedBackends.
Proof.
  apply (handleConnection_dials_within_acl mockEnv serverConfig1 conn1 (lb12 5) mem12
           (handleConnection mockEnv serverConfig1 conn1 (lb12 5) mem12).1.2
           (handleConnection mockEnv serverConfig1 conn1 (lb12 5) mem12).1.1.1
           (handleConnection mockEnv serverConfig1 conn1 (lb12 5) mem12).1.1.2
           (handleConnection mockEnv serverConfig1 conn1 (lb12 5) mem12).2).
  - by destruct (handleConnection mockEnv serverConfig1 conn1 (lb12 5) mem12)
      as [[[? ?] ?] ?].
  - vm_compute. constructor.
Defined.

(** A run of X19: nothing is handled from the turn of [Stop] on. *)
Lemma acceptConnections_handles_in_order_witness :
  handled (fst (acceptConnections false 0 turns_with_stop))
    `prefix_of` offered (take 2 turns_with_stop).
Proof.
  destruct (acceptConnections_handles_in_order turns_with_stop false 0%nat) as [_ H].
  apply (H (take 2 turns_with_stop) (mkTurn (Accepted conn1) StopBeforeCheck)
           (drop 3 turns_with_stop)); [reflexivity|done].
Defined.

(** A run of X18: two certificates with the same text are the same. *)
Lemma identity_text_injective_witness :
  mkCertificate "client1.example.com" 1234567890
  = mkCertificate "client1.example.com" (1234567889 + 1).
Proof.
  apply (identity_text_injective (mkCertificate "client1.example.com" 1234567890)
           (mkCertificate "client1.example.com" (1234567889 + 1))).
  by vm_compute.
Defined.

(** A run of X20: six failed accepts from the start. *)
Lemma acceptConnections_fatal_after_six_witness :
  ∃ pre six post,
    replicate 6 failing_turn = pre ++ six ++ post ∧ length six = 6%nat ∧
    Forall (λ t, accept_fails t = true) six.
Proof.
  destruct (acceptConnections_fatal_after_six (replicate 6 failing_turn)
              (fst (acceptConnections false 0 (replicate 6 failing_turn)))) as [H _].
  - by vm_compute.
  - exact H.
Defined.

End ServerMore.

(** ** More on main *)

Module MainMore.

Import Main Fixtures.
Local Open Scope Z_scope.

Lemma mapSliceToMapSet_empty_iff (mapSlice : gmap string (list string)) :
  mapSliceToMapSet mapSlice = ∅ ↔ mapSlice = ∅.
Proof. unfold mapSliceToMapSet. apply fmap_empty_iff. Qed.

(** X21: [mapSliceToMapSet] keeps the keys of the map it is given, and
    under each key the set holds the items of the slice and no other: an
    address is in the set exactly when it occurs in the slice, however
    often and wherever. *)
Theorem mapSliceToMapSet_members (mapSlice : gmap string (list string)) :
  dom (mapSliceToMapSet mapSlice) = dom mapSlice ∧
  ∀ key (set : gset string),
    mapSliceToMapSet mapSlice !! key = Some set →
    ∃ slice, mapSlice !! key = Some slice ∧ ∀ item, item ∈ set ↔ item ∈ slice.
Proof.
  unfold mapSliceToMapSet. split; [apply dom_fmap_L|].
  intros key set H. rewrite lookup_fmap in H.
  destruct (mapSlice !! key) as [slice|]; [|done].
  injection H as <-. exists slice. split; [done|].
  intros item. apply elem_of_list_to_set.
Qed.

Lemma listenAddr_not_blank port : listenAddr port ≠ EmptyString.
Proof. done. Qed.

Lemma log_backends_lookup addresses :
  ∀ i (k : nat) address,
    addresses !! k = Some address →
    log_backends i addresses !! k
    = Some (LogPrintln (Server.big_Int_String (i + Z.of_nat k + 1) ++ ": " ++ address)%string).
Proof.
  induction addresses as [|a rest IH]; intros i [|k] address H; try done.
  - injection H as ->. change (Z.of_nat 0) with 0. by rewrite Z.add_0_r.
  - change (log_backends (i + 1) rest !! k = Some
              (LogPrintln (Server.big_Int_String (i + Z.of_nat (S k) + 1) ++ ": " ++ address)%string)).
    replace (i + Z.of_nat (S k) + 1) with (i + 1 + Z.of_nat k + 1) by lia.
    by apply IH.
Qed.

(** X22: [main] runs to its last line, logging that the server stopped
    and ending with status 0, exactly when the flag names a
    configuration that loads, the TLS set-up succeeds, the configuration
    lists an allowed client and an access control entry, the listener
    opens and [Stop] returns without error.  The address [main] builds is
    never blank, so that check of [NewServer] cannot fail here. *)
Theorem main_runs_to_end args w :
  (∃ out, main args w = ((out ++ [LogPrintln "Server stopped."])%list, 0)) ↔
  ∃ path appConfig,
    Parse (length args) EmptyString args = Parsed path ∧
    path ≠ EmptyString ∧
    LoadAppConfig w path = inl appConfig ∧
    MakeServerTLSConfig w = None ∧
    AllowedClients appConfig ≠ ∅ ∧
    ClientBackendACL appConfig ≠ ∅ ∧
    tls_Listen w = None ∧
    Stop_result w = None.
Proof.
  unfold main. split.
  - intros [out H].
    destruct (Parse (length args) EmptyString args) as [path| |msg]; [|..].
    + destruct (decide (path = EmptyString)) as [Hp|Hp].
      { injection H as H. by destruct out as [|? [|? [|? ?]]]. }
      destruct (LoadAppConfig w path) as [appConfig|err] eqn:Hload; [|done].
      destruct (MakeServerTLSConfig w) as [err|]; [done|].
      destruct (Server.NewServer _ true true) as [err|] eqn:Hnew; [done|].
      destruct (tls_Listen w) as [err|]; [done|].
      destruct (Stop_result w) as [err|]; [done|].
      apply ServerMore.NewServer_None_inv in Hnew as (_ & _ & _ & Hc & Hl).
      simpl in Hc, Hl. exists path, appConfig.
      assert (ClientBackendACL appConfig ≠ ∅) as Hacl
        by (intros He; apply Hl; by apply mapSliceToMapSet_empty_iff).
      done.
    + injection H as H. by destruct out as [|? [|? ?]].
    + done.
  - intros (path & appConfig & -> & Hp & -> & -> & Hc & Hl & -> & ->).
    destruct (decide (path = EmptyString)); [done|].
    destruct (Server.NewServer _ true true) as [err|] eqn:Hnew.
    + rewrite ServerMore.NewServer_None_intro in Hnew; [done|done|done|].
      simpl. intros He. apply Hl. by apply mapSliceToMapSet_empty_iff.
    + eexists. reflexivity.
Qed.

(** X23: before anything else can fail, [main] logs the heading and one
    line for each backend of the configuration, numbered from 1 in the
    order of the configuration. *)
Theorem main_lists_backends args w path appConfig (k : nat) address :
  Parse (length args) EmptyString args = Parsed path →
  path ≠ EmptyString →
  LoadAppConfig w path = inl appConfig →
  Backends appConfig !! k = Some address →
  (main args w).1 !! 0%nat = Some (LogPrintln "Backend Servers:") ∧
  (main args w).1 !! S k
  = Some (LogPrintln (Server.big_Int_String (Z.of_nat k + 1) ++ ": " ++ address)%string).
Proof.
  intros HP Hp Hl Hk. unfold main. rewrite HP, Hl.
  destruct (decide (path = EmptyString)); [done|].
  pose proof (log_backends_lookup _ 0 k address Hk) as Hline.
  rewrite Z.add_0_l in Hline.
  assert (Hpre : ∀ tail : list output,
            ((LogPrintln "Backend Servers:" :: log_backends 0 (Backends appConfig)) ++ tail)
              !! 0%nat = Some (LogPrintln "Backend Servers:") ∧
            ((LogPrintln "Backend Servers:" :: log_backends 0 (Backends appConfig)) ++ tail)
              !! S k
            = Some (LogPrintln (Server.big_Int_String (Z.of_nat k + 1) ++ ": " ++ address)%string)).
  { intros tail. split; [done|]. simpl. by apply lookup_app_l_Some. }
  destruct (MakeServerTLSConfig w); [apply Hpre|].
  destruct (Server.NewServer _ true true); [apply Hpre|].
  destruct (tls_Listen w); [apply Hpre|].
  destruct (Stop_result w).
  - rewrite <- app_assoc. apply Hpre.
  - rewrite <- app_assoc. apply Hpre.
Qed.

(** A run of X23: the second backend of the configuration. *)
Lemma main_lists_backends_witness :
  (main ["-config"%string; "config.yaml"%string] world1).1 !! 2%nat
  = Some (LogPrintln "2: 127.0.0.1:5002").
Proof.
  destruct (main_lists_backends ["-config"%string; "config.yaml"%string] world1
              "config.yaml" appConfig1 1 "127.0.0.1:5002") as [_ H];
    [reflexivity|done|reflexivity|reflexivity|exact H].
Defined.

End MainMore.
